(** * TradeWise stock analysis: window filter, indicators, alerts, sentiment

    A shallow embedding of [utils/plotly_figure.py] and of the alert and
    sentiment parts of [StockAnalysis.py].

    Conventions of the embedding.
    - A price bar is a record; a [DataFrame] is the list of its rows and a
      [Series] is a list of cells.  A cell that pandas shows as [NaN] (or
      that holds Python's [None]) is [None : option Q].
    - Prices are exact rationals ([Q]); numeric results are compared with
      [Qeq] ([==]).  Rounding of binary floating point is not modelled.
    - Dates are calendar dates (year, month, day), ordered chronologically.
    - A Python exception is the [Raise] constructor of [res]. *)

From Stdlib Require Import ZArith QArith Qabs Lqa Lia Bool String Ascii.
From stdpp Require Import base tactics option list gmap strings pretty.

Local Open Scope Z_scope.

(** ** Python results *)

Inductive exn : Type := IndexError | KeyError | TypeError | AttributeError.

Inductive res (A : Type) : Type :=
| Ret (a : A)
| Raise (e : exn).
Arguments Ret {A} a.
Arguments Raise {A} e.

#[export] Instance res_ret : MRet res := λ A a, Ret a.

#[export] Instance res_bind : MBind res := λ A B k m,
  match m with
  | Ret a => k a
  | Raise e => Raise e
  end.

(** ** Calendar dates *)

Module Calendar.

Record date : Type := Date { year : Z; month : Z; day : Z }.

#[export] Instance date_eq_dec : EqDecision date.
Proof. solve_decision. Defined.

(** Chronological order: the order of pandas [Timestamp]s at midnight. *)
Definition date_lt (a b : date) : Prop :=
  year a < year b ∨
  (year a = year b ∧ (month a < month b ∨ (month a = month b ∧ day a < day b))).

Definition date_le (a b : date) : Prop := date_lt a b ∨ a = b.

#[export] Instance date_lt_dec a b : Decision (date_lt a b).
Proof. unfold date_lt. apply _. Defined.

#[export] Instance date_le_dec a b : Decision (date_le a b).
Proof. unfold date_le. apply _. Defined.

(** [calendar.isleap] *)
Definition isleap (y : Z) : bool :=
  (y mod 4 =? 0) && (negb (y mod 100 =? 0) || (y mod 400 =? 0)).

(** [calendar.monthrange(year, month)[1]]: the number of days of a month. *)
Definition days_in_month (y m : Z) : Z :=
  if m =? 2 then (if isleap y then 29 else 28)
  else if (m =? 4) || (m =? 6) || (m =? 9) || (m =? 11) then 30
  else 31.

(** The day before and the day after, which is what adding
    [datetime.timedelta(days=-1)] and [datetime.timedelta(days=1)] gives. *)
Definition pred_day (d : date) : date :=
  if 1 <? day d then Date (year d) (month d) (day d - 1)
  else if 1 <? month d
       then Date (year d) (month d - 1) (days_in_month (year d) (month d - 1))
       else Date (year d - 1) 12 31.

Definition succ_day (d : date) : date :=
  if day d <? days_in_month (year d) (month d)
  then Date (year d) (month d) (day d + 1)
  else if month d <? 12 then Date (year d) (month d + 1) 1
       else Date (year d + 1) 1 1.

(** [dt + datetime.timedelta(days=n)] *)
Definition add_days (d : date) (n : Z) : date :=
  if 0 <=? n then Nat.iter (Z.to_nat n) succ_day d
  else Nat.iter (Z.to_nat (- n)) pred_day d.

(** A well-formed calendar date. *)
Definition valid_date (d : date) : Prop :=
  1 ≤ month d ≤ 12 ∧ 1 ≤ day d ≤ days_in_month (year d) (month d).

(** [dateutil.relativedelta.relativedelta(years=, months=, days=)]: only
    the relative fields that [filter_data] sets. *)
Record relativedelta : Type :=
  RelativeDelta { years : Z; months : Z; days : Z }.

Definition rd_neg (rd : relativedelta) : relativedelta :=
  RelativeDelta (- years rd) (- months rd) (- days rd).

(** [relativedelta.__radd__]: shift year and month, clip the day to the
    length of the month reached, then add the days. *)
Definition rd_add (dt : date) (rd : relativedelta) : date :=
  let y := year dt + years rd in
  let m := month dt in
  let '(y, m) :=
    if months rd =? 0 then (y, m)
    else
      let m := m + months rd in
      if 12 <? m then (y + 1, m - 12)
      else if m <? 1 then (y - 1, m + 12)
      else (y, m) in
  let d := Z.min (days_in_month y m) (day dt) in
  add_days (Date y m d) (days rd).

(** [dt - rd], that is [relativedelta.__rsub__]. *)
Definition rd_rsub (dt : date) (rd : relativedelta) : date :=
  rd_add dt (rd_neg rd).

End Calendar.
Export Calendar.

(** ** The window filter: [filter_data] *)

Section filter_data.
(** The frame is a list of rows of any row type [A] that has a ['Date']
    column. *)
Context {A : Type} (Date_col : A → date).

(** The chain of comparisons on [num_period].  [first] is
    [df['Date'].iloc[0]], [latest] is [df['Date'].iloc[-1]]. *)
Definition cutoff_of (latest first : date) (num_period : string) : date :=
  if String.eqb num_period "1mo" then rd_rsub latest (RelativeDelta 0 1 0)
  else if String.eqb num_period "5d" then rd_rsub latest (RelativeDelta 0 0 5)
  else if String.eqb num_period "6mo" then rd_rsub latest (RelativeDelta 0 6 0)
  else if String.eqb num_period "1y" then rd_rsub latest (RelativeDelta 1 0 0)
  else if String.eqb num_period "5y" then rd_rsub latest (RelativeDelta 5 0 0)
  else if String.eqb num_period "ytd" then Date (year latest) 1 1
  else if String.eqb num_period "max" || String.eqb num_period "" then first
  else first.

(** The cutoff that [filter_data] uses on a non-empty frame. *)
Definition cutoff (r0 : A) (rest : list A) (num_period : string) : date :=
  cutoff_of (Date_col (default r0 (last (r0 :: rest)))) (Date_col r0) num_period.

(** [filter_data(dataframe, num_period)]; indexing an empty frame with
    [.iloc[-1]] raises [IndexError]. *)
Definition filter_data (df : list A) (num_period : string) : res (list A) :=
  match df with
  | [] => Raise IndexError
  | r0 :: rest =>
      Ret (filter (λ r, date_lt (cutoff r0 rest num_period) (Date_col r)) df)
  end.
End filter_data.

(** ** Price bars *)

Record bar : Type := Bar {
  bdate : date;
  open : Q;
  high : Q;
  low : Q;
  close : Q;
  volume : Z
}.

(** The tags of the windows with a dated cutoff. *)
Definition dated_tags : list string := ["5d"; "1mo"; "6mo"; "1y"; "5y"; "ytd"]%string.

(** Dates strictly increasing along the frame: the invariant of a price
    series. *)
Fixpoint increasing {A} (Date_col : A → date) (df : list A) : Prop :=
  match df with
  | [] => True
  | r :: rest =>
      match rest with
      | [] => True
      | r' :: _ => date_lt (Date_col r) (Date_col r')
      end ∧ increasing Date_col rest
  end.

#[export] Instance increasing_dec {A} (Date_col : A → date) (df : list A) :
  Decision (increasing Date_col df).
Proof.
  induction df as [|r rest IH]; simpl; [apply _|].
  destruct rest; apply _.
Defined.

#[export] Instance valid_date_dec (d : date) : Decision (valid_date d).
Proof. unfold valid_date. apply _. Defined.

(** ** Series and frames of pandas *)

(** A [Series] of floats; [None] is [NaN]. *)
Abbreviation Series := (list (option Q)).

(** A [DataFrame] of indicator columns, in column order. *)
Abbreviation DataFrame := (list (string * list (option Q))).

Module pd.
Local Open Scope Q_scope.

Definition Qltb (x y : Q) : bool := negb (Qle_bool y x).

(** Cell arithmetic: [NaN] is absorbing. *)
Definition olift2 (f : Q → Q → Q) (a b : option Q) : option Q :=
  match a, b with
  | Some x, Some y => Some (f x y)
  | _, _ => None
  end.

Definition oadd := olift2 Qplus.
Definition osub := olift2 Qminus.
Definition omul := olift2 Qmult.
Definition oabs (a : option Q) : option Q := Qabs <$> a.

(** Float division of cells.  [0/0] is [NaN]; a non-zero numerator over
    zero would be an infinity, which [Q] does not have: the only
    quotient taken with this operation is the one of [pta.rsi], whose
    numerator is zero whenever its denominator is (lemma
    [RsiProofs.rsi_denominator_zero]). *)
Definition odiv (a b : option Q) : option Q :=
  match a, b with
  | Some x, Some y => if Qeq_bool y 0 then None else Some (x / y)
  | _, _ => None
  end.

(** [s1 + s2], [s1 - s2], ... on two series with the same index. *)
Definition add (s1 s2 : Series) : Series := zip_with oadd s1 s2.
Definition sub (s1 s2 : Series) : Series := zip_with osub s1 s2.
Definition div (s1 s2 : Series) : Series := zip_with odiv s1 s2.
Definition scale (k : Q) (s : Series) : Series := omul (Some k) <$> s.
Definition abs (s : Series) : Series := oabs <$> s.

(** [s.diff(1)] *)
Definition diff (s : Series) : Series :=
  match s with
  | [] => []
  | _ :: t => None :: zip_with osub t s
  end.

(** [s[s < 0] = 0] and [s[s > 0] = 0]: a comparison with [NaN] is false. *)
Definition clip_below_zero (s : Series) : Series :=
  (λ c : option Q, (λ x, if Qltb x 0 then 0 else x) <$> c) <$> s.
Definition clip_above_zero (s : Series) : Series :=
  (λ c : option Q, (λ x, if Qltb 0 x then 0 else x) <$> c) <$> s.

(** The observations (cells that are not [NaN]) of a series. *)
Definition observations (s : Series) : list Q := omap id s.

Definition Qsum (l : list Q) : Q := foldr Qplus 0 l.
Definition Qnat (n : nat) : Q := inject_Z (Z.of_nat n).
Definition Qlen {A} (l : list A) : Q := Qnat (length l).

(** [s.mean()], which skips [NaN]. *)
Definition mean (s : Series) : option Q :=
  match observations s with
  | [] => None
  | obs => Some (Qsum obs / Qlen obs)
  end.

(** [s.rolling(window, min_periods=min_periods).mean()] *)
Definition rolling_mean (window min_periods : nat) (s : Series) : Series :=
  imap (λ i _,
          let w := drop (i + 1 - window) (take (i + 1) s) in
          if decide (min_periods ≤ length (observations w))%nat
          then mean w else None) s.

(** The state of the loop of [ewm(...).mean()]: the running weighted
    average, the weight of the past, the number of observations seen. *)
Record ewm_state : Type :=
  EwmState { weighted : option Q; old_wt : Q; nobs : nat }.

Definition is_observation (cur : option Q) : nat :=
  match cur with Some _ => 1%nat | None => 0%nat end.

(** One turn of the loop, with [ignore_na=False] and equally spaced
    points. *)
Definition ewm_step (alpha : Q) (adjust : bool)
    (st : ewm_state) (cur : option Q) : ewm_state :=
  let old_wt_factor := 1 - alpha in
  let new_wt := if adjust then 1 else alpha in
  let nobs' := (nobs st + is_observation cur)%nat in
  match weighted st with
  | Some w =>
      let old_wt' := old_wt st * old_wt_factor in
      match cur with
      | Some c =>
          let w' := if Qeq_bool w c then w
                    else (old_wt' * w + new_wt * c) / (old_wt' + new_wt) in
          EwmState (Some w') (if adjust then old_wt' + new_wt else 1) nobs'
      | None => EwmState (Some w) old_wt' nobs'
      end
  | None => EwmState cur (old_wt st) nobs'
  end.

Definition ewm_out (minp : nat) (st : ewm_state) : option Q :=
  if decide (minp ≤ nobs st)%nat then weighted st else None.

Fixpoint ewm_loop (alpha : Q) (adjust : bool) (minp : nat)
    (st : ewm_state) (vals : Series) : Series :=
  match vals with
  | [] => []
  | cur :: rest =>
      let st' := ewm_step alpha adjust st cur in
      ewm_out minp st' :: ewm_loop alpha adjust minp st' rest
  end.

Definition ewm_init (v0 : option Q) : ewm_state :=
  EwmState v0 1 (is_observation v0).

(** [s.ewm(alpha=alpha, adjust=adjust, min_periods=min_periods).mean()] *)
Definition ewm_mean (alpha : Q) (adjust : bool) (min_periods : nat)
    (s : Series) : Series :=
  let minp := Nat.max min_periods 1 in
  match s with
  | [] => []
  | v0 :: rest =>
      ewm_out minp (ewm_init v0)
        :: ewm_loop alpha adjust minp (ewm_init v0) rest
  end.

(** [s.first_valid_index()] on the default index; [None] when every cell
    is [NaN]. *)
Definition first_valid_index (s : Series) : option nat :=
  fst <$> list_find is_Some s.

End pd.

(** ** The indicators of pandas_ta

    [pandas_ta] is a dependency of the program, not part of it; these
    definitions follow its pure pandas code path (the one taken when
    TA-Lib is not installed), with the default arguments that the program
    leaves untouched. *)

Module pta.
Local Open Scope Q_scope.
Import pd.

(** [verify_series(series, min_length)]: [None] when the series is too
    short. *)
Definition verify_series (s : Series) (min_length : nat) : option Series :=
  if decide (length s < min_length)%nat then None else Some s.

(** The [length = int(length) if length and length > 0 else dflt] idiom. *)
Definition length_arg (length : Z) (dflt : nat) : nat :=
  if (0 <? length)%Z then Z.to_nat length else dflt.

(** The value of [f(...)] where an operand that is [None] makes the
    arithmetic of the caller raise [TypeError]. *)
Definition required {A} (o : option A) : res A :=
  match o with
  | Some a => Ret a
  | None => Raise TypeError
  end.

(** [pta.sma(close, length)] *)
Definition sma (close : Series) (length : Z) : res (option Series) :=
  let length := length_arg length 10 in
  let min_periods := length in
  match verify_series close (Nat.max length min_periods) with
  | None => Ret None
  | Some close => Ret (Some (rolling_mean length min_periods close))
  end.

(** [pta.rma(close, length)]: Wilder's moving average, an exponentially
    weighted mean with [alpha = 1/length]. *)
Definition rma (close : Series) (length : Z) : option Series :=
  let length := length_arg length 10 in
  let alpha := 1 / Qnat length in
  close ← verify_series close length;
  Some (ewm_mean alpha true length close).

(** The up-moves and the down-moves of [pta.rsi]: [close.diff(drift)]
    with the negative, respectively the positive, cells set to zero. *)
Definition positive (close : Series) : Series := clip_below_zero (diff close).
Definition negative (close : Series) : Series := clip_above_zero (diff close).

(** [pta.rsi(close, length)], with [scalar = 100] and [drift = 1]. *)
Definition rsi (close : Series) (length : Z) : res (option Series) :=
  let length' := length_arg length 14 in
  let scalar := 100 in
  match verify_series close length' with
  | None => Ret None
  | Some close =>
      positive_avg ← required (rma (positive close) (Z.of_nat length'));
      negative_avg ← required (rma (negative close) (Z.of_nat length'));
      Ret (Some (div (scale scalar positive_avg)
                     (add positive_avg (abs negative_avg))))
  end.

(** [pta.ema(close, length)], seeded with the simple average of the first
    [length] values ([sma=True], [adjust=False]). *)
Definition ema (close : Series) (length : Z) : option Series :=
  let length := length_arg length 10 in
  close ← verify_series close length;
  let sma_nth := mean (take length close) in
  let close := replicate (length - 1) None ++ sma_nth :: drop length close in
  let span := Qnat length in
  Some (ewm_mean (2 / (span + 1)) false 0 close).

Definition fast : Z := 12.
Definition slow : Z := 26.
Definition signal : Z := 9.

(** [pta.macd(close)] with the default periods.  The frame it returns
    has the MACD line first, the histogram second and the signal line
    third. *)
Definition macd (close : Series) : res (option DataFrame) :=
  match verify_series close (Z.to_nat (Z.max (Z.max fast slow) signal)) with
  | None => Ret None
  | Some close =>
      fastma ← required (ema close fast);
      slowma ← required (ema close slow);
      let macd := sub fastma slowma in
      let k := default 0%nat (first_valid_index macd) in
      signalma ← required (ema (drop k macd) signal);
      (* aligned on the index of [macd] *)
      let signalma := replicate k None ++ signalma in
      let histogram := sub macd signalma in
      Ret (Some [("MACD_12_26_9"%string, macd);
                 ("MACDh_12_26_9"%string, histogram);
                 ("MACDs_12_26_9"%string, signalma)])
  end.

End pta.

(** ** The chart functions of [utils/plotly_figure.py] *)

(** A trace of a figure: its name and its x and y data.  Colours, line
    styles and layout are left out. *)
Record trace : Type := Trace { tname : string; tx : list date; ty : Series }.

Abbreviation figure := (list trace).

Definition Close_col (df : list bar) : Series := (λ b, Some (close b)) <$> df.

(** [df[name] = value] where [value] is a series on the index of [df], or
    [None], which fills the column with [None]. *)
Definition column_of (n : nat) (value : option Series) : Series :=
  match value with
  | Some s => s
  | None => replicate n None
  end.

(** The ['RSI'] column that [RSI] adds to its copy of the frame. *)
Definition RSI_column (dataframe : list bar) : res Series :=
  rsi ← pta.rsi (Close_col dataframe) 14;
  Ret (column_of (length dataframe) rsi).

Inductive RSI_result : Type :=
| RSI_series (s : Series)
| RSI_figure (fig : figure).

(** [RSI(dataframe, num_period, accent, return_series)] *)
Definition RSI (dataframe : list bar) (num_period : string)
    (return_series : bool) : res RSI_result :=
  col ← RSI_column dataframe;
  if return_series then Ret (RSI_series col)
  else
    df ← filter_data (bdate ∘ fst) (zip dataframe col) num_period;
    Ret (RSI_figure [Trace "RSI" (bdate ∘ fst <$> df) (snd <$> df)]).

(** The ['SMA'] column that [Moving_average] adds. *)
Definition SMA_column (dataframe : list bar) (ma_period : Z) : res Series :=
  sma ← pta.sma (Close_col dataframe) ma_period;
  Ret (column_of (length dataframe) sma).

(** [Moving_average(dataframe, num_period, ma_period, accent)] *)
Definition Moving_average (dataframe : list bar) (num_period : string)
    (ma_period : Z) : res figure :=
  col ← SMA_column dataframe ma_period;
  df ← filter_data (bdate ∘ fst) (zip dataframe col) num_period;
  Ret [Trace "Close" (bdate ∘ fst <$> df) (Some ∘ close ∘ fst <$> df);
       Trace ("SMA " +:+ pretty ma_period) (bdate ∘ fst <$> df) (snd <$> df)].

(** [frame.columns[i]] and [frame[name]] *)
Definition columns_at (frame : DataFrame) (i : nat) : res string :=
  match frame !! i with
  | Some c => Ret c.1
  | None => Raise IndexError
  end.

Definition getitem (frame : DataFrame) (name : string) : res Series :=
  match list_find (λ c, c.1 = name) frame with
  | Some (_, c) => Ret c.2
  | None => Raise KeyError
  end.

(** A row of the frame of [MACD]: the bar and the three added columns. *)
Record macd_row : Type := MacdRow {
  m_bar : bar;
  m_MACD : option Q;
  m_Signal : option Q;
  m_Hist : option Q
}.

Definition cell (s : Series) (i : nat) : option Q := default None (s !! i).

(** The frame of [MACD] after the three column assignments. *)
Definition MACD_frame (dataframe : list bar) : res (list macd_row) :=
  macd ← pta.macd (Close_col dataframe);
  match macd with
  | None => Raise AttributeError
  | Some macd =>
      macd_col ← columns_at macd 0;
      signal_col ← columns_at macd 1;
      hist_col ← columns_at macd 2;
      MACDc ← getitem macd macd_col;
      Signalc ← getitem macd signal_col;
      Histc ← getitem macd hist_col;
      Ret (imap (λ i b, MacdRow b (cell MACDc i) (cell Signalc i) (cell Histc i))
             dataframe)
  end.

(** [MACD(dataframe, num_period, accent)] *)
Definition MACD (dataframe : list bar) (num_period : string) : res figure :=
  df ← MACD_frame dataframe;
  df ← filter_data (bdate ∘ m_bar) df num_period;
  let x := bdate ∘ m_bar <$> df in
  Ret [Trace "MACD" x (m_MACD <$> df);
       Trace "Signal" x (m_Signal <$> df);
       Trace "Histogram" x (m_Hist <$> df)].

(** ** Alerts of [StockAnalysis.py] *)

(** [plot_period = num_period if num_period != "" else "1y"] *)
Definition plot_period_of (num_period : string) : string :=
  if String.eqb num_period "" then "1y"%string else num_period.

(** The [try] block: the last cell of the RSI series, [None] on any
    exception.  A [NaN] cell and [None] both read as [None : option Q]. *)
Definition current_rsi (hist : list bar) (plot_period : string) : option Q :=
  match RSI hist plot_period true with
  | Ret (RSI_series rsi_series) => mjoin (last rsi_series)
  | _ => None
  end.

Inductive alert : Type :=
| PriceAlert (threshold current : Q)
| RsiAlert (threshold : Z) (current : Q).

(** [rsi_alert > 0 and current_rsi is not None and current_rsi <= rsi_alert];
    a comparison with [NaN] is false. *)
Definition rsi_alert_fires (rsi_alert : Z) (current_rsi : option Q) : bool :=
  (0 <? rsi_alert) &&
  match current_rsi with
  | Some r => Qle_bool r (inject_Z rsi_alert)
  | None => false
  end.

Definition price_alert_fires (price_alert last_close : Q) : bool :=
  pd.Qltb 0 price_alert && Qle_bool price_alert last_close.

(** The list [triggered]. *)
Definition triggered (price_alert : Q) (rsi_alert : Z)
    (last_close : Q) (current_rsi : option Q) : list alert :=
  (if price_alert_fires price_alert last_close
   then [PriceAlert price_alert last_close] else [])
  ++ match current_rsi with
     | Some r => if rsi_alert_fires rsi_alert current_rsi
                 then [RsiAlert rsi_alert r] else []
     | None => []
     end.

(** ** Sentiment of [StockAnalysis.py] *)

Module Sentiment.
Local Open Scope string_scope.

(** [str.lower] on ASCII text. *)
Definition lower_ascii (c : ascii) : ascii :=
  let n := nat_of_ascii c in
  if (65 <=? n)%nat && (n <=? 90)%nat then ascii_of_nat (n + 32) else c.

Fixpoint lower (s : string) : string :=
  match s with
  | EmptyString => EmptyString
  | String c s' => String (lower_ascii c) (lower s')
  end.

(** [w in t] on strings *)
Fixpoint contains (w t : string) : bool :=
  String.prefix w t ||
  match t with
  | EmptyString => false
  | String _ t' => contains w t'
  end.

(** The two set literals. *)
Definition pos_words : gset string :=
  list_to_set ["gain"; "beat"; "up"; "strong"; "positive"; "record"; "surge";
               "growth"; "raise"; "outperform"; "upgrade"; "profit"].

Definition neg_words : gset string :=
  list_to_set ["drop"; "fall"; "loss"; "miss"; "down"; "weak"; "decline";
               "warning"; "cut"; "recall"; "lawsuit"; "downgrade"; "loss"].

(** [sum(1 for w in words if w in t)] *)
Definition count_in (words : gset string) (t : string) : Z :=
  Z.of_nat (length (filter (λ w, contains w t = true) (elements words))).

(** [sentiment_and_score(text)]; [text or ""] turns [None] into [""]. *)
Definition sentiment_and_score (text : option string) : string * Z :=
  let t := lower (default "" text) in
  let pos := count_in pos_words t in
  let neg := count_in neg_words t in
  let score := pos - neg in
  let label :=
    if (0 <? score)%Z then "Positive"
    else if (score <? 0)%Z then "Negative"
    else "Neutral" in
  (label, score).

End Sentiment.

(** ** The window rules as the specification words them *)

Module Spec.



(** [n] days earlier. *)
Definition minus_days (d : date) (n : Z) : date := add_days d (- n).

(** [n] calendar months earlier: count months since year 0, step back,
    and keep the day of the month unless the month reached is shorter. *)
Definition minus_months (d : date) (n : Z) : date :=
  let t := year d * 12 + (month d - 1) - n in
  let y := t / 12 in
  let m := t mod 12 + 1 in
  Date y m (Z.min (days_in_month y m) (day d)).

(** [n] calendar years earlier (29 February falls back to 28 February). *)
Definition minus_years (d : date) (n : Z) : date :=
  let y := year d - n in
  Date y (month d) (Z.min (days_in_month y (month d)) (day d)).

(** The cutoff of each dated window. *)
Definition window_cutoff (anchor : date) (tag : string) : option date :=
  if String.eqb tag "5d" then Some (minus_days anchor 5)
  else if String.eqb tag "1mo" then Some (minus_months anchor 1)
  else if String.eqb tag "6mo" then Some (minus_months anchor 6)
  else if String.eqb tag "1y" then Some (minus_years anchor 1)
  else if String.eqb tag "5y" then Some (minus_years anchor 5)
  else if String.eqb tag "ytd" then Some (Date (year anchor) 1 1)
  else None.


(** The last defined cell of a derived series. *)
Definition last_defined (s : Series) : option Q :=
  last (pd.observations s).

(** A word occurs in a text, letter case aside. *)
Definition occurs_ci (w t : string) : Prop :=
  ∃ pre mid suf, t = pre +:+ mid +:+ suf ∧ Sentiment.lower mid = Sentiment.lower w.

(** The lexicon of the specification. *)
Definition positive_lexicon : list string :=
  ["gain"; "beat"; "up"; "strong"; "positive"; "record"; "surge"; "growth";
   "raise"; "outperform"; "upgrade"; "profit"]%string.

Definition negative_lexicon : list string :=
  ["drop"; "fall"; "loss"; "miss"; "down"; "weak"; "decline"; "warning";
   "cut"; "recall"; "lawsuit"; "downgrade"]%string.


(** The exponential moving average of a series whose first cell is
    defined: seeded with the plain average of the first [n] values, then
    [e' = e + alpha * (x - e)] with [alpha = 2/(n+1)]. *)
Fixpoint ema_from (alpha e : Q) (xs : list Q) : list Q :=
  match xs with
  | [] => []
  | x :: xs' => let e' := (e + alpha * (x - e))%Q in e' :: ema_from alpha e' xs'
  end.


(** The exponential moving average of period [n] of a series of defined
    values, aligned with it: undefined until [n] values are there. *)
Definition ema (n : nat) (xs : list Q) : Series :=
  if decide (length xs < n)%nat then replicate (length xs) None
  else
    let seed := (pd.Qsum (take n xs) / pd.Qnat n)%Q in
    replicate (n - 1) None
      ++ Some seed :: (Some <$> ema_from (2 / (pd.Qnat n + 1))%Q seed (drop n xs)).

(** The signal line of a MACD line: its EMA(9) from the first defined
    value on. *)
Definition signal_line (line : Series) : Series :=
  let k := default 0%nat (pd.first_valid_index line) in
  replicate k None ++ ema 9 (pd.observations (drop k line)).

End Spec.

(** ** Sample series used by the examples *)

Module Samples.

Definition flat_bar (d : date) (c : Z) : bar :=
  Bar d (inject_Z c) (inject_Z c) (inject_Z c) (inject_Z c) 0.

(** Consecutive daily bars from [d0] with the given closes. *)
Fixpoint daily (d0 : date) (closes : list Z) : list bar :=
  match closes with
  | [] => []
  | c :: cs => flat_bar d0 c :: daily (succ_day d0) cs
  end.

(** Two bars on 2 and 3 January 2024. *)
Definition two_bars : list bar := daily (Date 2024 1 2) [100; 101].

(** Twenty bars, close rising by 1 a day from 100. *)
Definition rising_closes : list Q := inject_Z <$> seqZ 100 20.
Definition rising20 : list bar := daily (Date 2024 1 2) (seqZ 100 20).

(** Twenty bars, close falling by 1 a day from 119. *)
Definition falling20 : list bar :=
  daily (Date 2024 1 2) ((λ i, 119 - i) <$> seqZ 0 20).

(** Twenty bars, close at 100 throughout. *)
Definition flat20 : list bar := daily (Date 2024 1 2) (replicate 20 100).

(** Fifteen bars that end on 1 January 2024, close rising by 1 a day. *)
Definition new_year15 : list bar := daily (Date 2023 12 18) (seqZ 100 15).

(** Thirty-five bars: the close stays at 100 for thirty-three days and
    then moves to 451.  [pta.macd] has a signal line from the
    thirty-fourth bar on. *)
Definition jump35 : list bar :=
  daily (Date 2024 1 2) (replicate 33 100 ++ [451; 451]).

End Samples.

(** ** Auxiliary notions for the proofs about [pta.rsi] *)

Module RsiAux.
Import pd.
Local Open Scope Q_scope.

(** One cell of [scalar * positive_avg / (positive_avg + negative_avg.abs())] *)
Definition rsi_cell (scalar : Q) (p n : option Q) : option Q :=
  odiv (omul (Some scalar) p) (oadd p (oabs n)).

(** An up-move and a down-move at the same index: both missing, or a
    gain that is not negative beside a loss that is not positive. *)
Definition paired (p n : option Q) : Prop :=
  match p, n with
  | Some x, Some y => 0 <= x ∧ y <= 0
  | None, None => True
  | _, _ => False
  end.

(** The two smoothing loops of [pta.rsi] run in step. *)
Definition in_step (stp stn : ewm_state) : Prop :=
  nobs stp = nobs stn
  ∧ 0 < old_wt stp ∧ 0 < old_wt stn
  ∧ paired (weighted stp) (weighted stn).

(** From here on every cell of the RSI is defined: enough observations
    and a non-zero average move. *)
Definition live (minp : nat) (stp stn : ewm_state) : Prop :=
  (minp ≤ nobs stp)%nat
  ∧ ∃ wp wn, weighted stp = Some wp ∧ weighted stn = Some wn
             ∧ 0 < wp + Qabs wn.

(** The state before the first cell is read. *)
Definition pre : ewm_state := EwmState None 1 0.

End RsiAux.

(** ** A decision procedure for the columns of [MACD] on a given series *)

Module MacdAux.

(** On the last row: the ['Hist'] cell is the signal line of the
    specification, the ['Signal'] cell is the MACD line minus that signal
    line, and neither is the other way round. *)
Definition columns_swapped (hist : list bar) : bool :=
  match MACD_frame hist with
  | Ret rows =>
      match last rows, mjoin (last (Spec.signal_line (m_MACD <$> rows))) with
      | Some row, Some g =>
          match m_MACD row, m_Signal row, m_Hist row with
          | Some m, Some s, Some h =>
              Qeq_bool h g && Qeq_bool s (m - g)
              && negb (Qeq_bool s g) && negb (Qeq_bool h (m - g))
          | _, _, _ => false
          end
      | _, _ => false
      end
  | Raise _ => false
  end.

End MacdAux.

(** The tags of the windows that reach back from the anchor by days,
    months or years. *)
Definition reaching_tags : list string := ["5d"; "1mo"; "6mo"; "1y"; "5y"]%string.

(** ** Shapes of a close series *)

#[export] Instance Qle_dec (x y : Q) : Decision (x <= y)%Q.
Proof.
  destruct (Qlt_le_dec y x) as [Hlt|Hle].
  - right. by apply Qlt_not_le.
  - by left.
Defined.

#[export] Instance Qeq_dec' (x y : Q) : Decision (x == y)%Q := Qeq_dec x y.

(** Each element is related to the next one. *)
Fixpoint chain {A} (R : A → A → Prop) (l : list A) : Prop :=
  match l with
  | [] => True
  | x :: rest =>
      match rest with
      | [] => True
      | y :: _ => R x y
      end ∧ chain R rest
  end.

#[export] Instance chain_dec {A} (R : A → A → Prop)
    `{!∀ x y, Decision (R x y)} (l : list A) : Decision (chain R l).
Proof.
  induction l as [|x rest IH]; simpl; [apply _|].
  destruct rest; apply _.
Defined.

(** The close never falls, never rises, never moves from one bar to the
    next. *)
Definition never_falls (hist : list bar) : Prop :=
  chain (λ a b, close a <= close b)%Q hist.
Definition never_rises (hist : list bar) : Prop :=
  chain (λ a b, close b <= close a)%Q hist.
Definition flat (hist : list bar) : Prop :=
  chain (λ a b, close a == close b)%Q hist.

(** A cell that is zero where it is defined. *)
Definition zeroish (c : option Q) : Prop := ∀ x, c = Some x → (x == 0)%Q.

(** ** The price charts and the table of [utils/plotly_figure.py] *)

(** [close_chart(dataframe, num_period, accent)]: the close and the open
    over the window. *)
Definition close_chart (dataframe : list bar) (num_period : string)
    : res figure :=
  df ← filter_data bdate dataframe num_period;
  Ret [Trace "Close" (bdate <$> df) (Some ∘ close <$> df);
       Trace "Open" (bdate <$> df) (Some ∘ open <$> df)].

(** The data of a [go.Candlestick] trace. *)
Record candle_trace : Type := Candle {
  c_x : list date;
  c_open : Series;
  c_high : Series;
  c_low : Series;
  c_close : Series
}.

(** [candlestick(dataframe, num_period, accent)] *)
Definition candlestick (dataframe : list bar) (num_period : string)
    : res candle_trace :=
  df ← filter_data bdate dataframe num_period;
  Ret (Candle (bdate <$> df) (Some ∘ open <$> df) (Some ∘ high <$> df)
         (Some ∘ low <$> df) (Some ∘ close <$> df)).

(** What [plotly_table] puts in its [go.Table]. *)
Record table : Type := Table {
  header_fill : string;
  header_font : string;
  cell_labels : list string;
  cell_values : list string;
  cell_fill : list string;
  cell_font : string
}.

Section plotly_table.
(** The frame is the list of its rows: the index label (already a
    string) and the value of the first column.  [format_val] renders a
    value; it formats floats and is left abstract. *)
Context {V : Type} (format_val : V → string).

(** [plotly_table(dataframe, accent, bg_mode)] *)
Definition plotly_table (dataframe : list (string * V))
    (accent bg_mode : string) : table :=
  let df := dataframe in
  let labels := (λ r, "<b>" +:+ r.1 +:+ "</b>") <$> df in
  let values := (λ r, format_val r.2) <$> df in
  let headerColor := if String.eqb bg_mode "accented" then accent else "#f7f7f7" in
  let headerFontColor := if String.eqb bg_mode "accented" then "white" else "black" in
  let rowEven := if String.eqb bg_mode "plain" then "#ffffff" else "#0f1721" in
  let rowOdd := if String.eqb bg_mode "plain" then "#f8f9fa" else "#0b0d11" in
  Table headerColor headerFontColor labels values
    (mjoin (replicate ((length df + 1) / 2) [rowOdd; rowEven]))
    (if String.eqb bg_mode "plain" then "black" else "#e8e8e8").
End plotly_table.

(** ** The sidebar controls and the overview of [StockAnalysis.py] *)

Module Dashboard.

(** [datetime.date(year, month, day)]: [None] stands for the
    [ValueError] of a date that does not exist. *)
Definition MINYEAR : Z := 1.
Definition MAXYEAR : Z := 9999.

Definition py_date (y m d : Z) : option date :=
  if decide (MINYEAR ≤ y ≤ MAXYEAR ∧ valid_date (Date y m d))
  then Some (Date y m d) else None.

(** [default_start = datetime.date(today.year - 1, today.month, today.day)] *)
Definition default_start (today : date) : option date :=
  py_date (year today - 1) (month today) (day today).

(** The check of the two date inputs: [if start_date >= end_date] both
    fall back to the defaults. *)
Definition date_range (default_start today start_date end_date : date)
    : date * date :=
  if decide (date_le end_date start_date) then (default_start, today)
  else (start_date, end_date).

(** The range the dashboard fetches, from today's date and the two
    inputs. *)
Definition fetch_range (today start_date end_date : date)
    : option (date * date) :=
  default_start ← default_start today;
  Some (date_range default_start today start_date end_date).

(** The options of the quick-range box and [quick_map]. *)
Definition quick_options : list string :=
  ["Custom"; "5D"; "1M"; "6M"; "YTD"; "1Y"; "5Y"; "MAX"].

Definition quick_map : gmap string string :=
  list_to_map [("5D", "5d"); ("1M", "1mo"); ("6M", "6mo"); ("YTD", "ytd");
               ("1Y", "1y"); ("5Y", "5y"); ("MAX", "max"); ("Custom", "")].

(** [num_period = quick_map.get(quick, "")] *)
Definition num_period_of (quick : string) : string :=
  default "" (quick_map !! quick).

(** [summary[:800] + ("..." if len(summary) > 800 else "")] *)
Definition overview_summary (summary : string) : string :=
  String.substring 0 800 summary
  +:+ (if (800 <? String.length summary)%nat then "..." else "").

(** [last_close = hist['Close'].iloc[-1]], the price of the top metric. *)
Definition last_close (hist : list bar) : option Q := close <$> last hist.

End Dashboard.

(** * Properties *)

(** ** Calendar order *)

Section calendar_facts.
Implicit Types a b c d : date.

Lemma date_lt_irrefl a : ¬ date_lt a a.
Proof. unfold date_lt. lia. Qed.

Lemma date_lt_trans a b c : date_lt a b → date_lt b c → date_lt a c.
Proof. unfold date_lt. lia. Qed.


Lemma date_lt_le_trans a b c : date_lt a b → date_le b c → date_lt a c.
Proof. intros Hab [Hbc | <-]; eauto using date_lt_trans. Qed.


Lemma date_eta d : Date (year d) (month d) (day d) = d.
Proof. by destruct d. Qed.

Lemma pred_day_lt d : date_lt (pred_day d) d.
Proof.
  unfold pred_day, date_lt.
  destruct (Z.ltb_spec 1 (day d)); [simpl; lia|].
  destruct (Z.ltb_spec 1 (month d)); simpl; lia.
Qed.

Lemma iter_pred_day_lt n d : (0 < n)%nat → date_lt (Nat.iter n pred_day d) d.
Proof.
  induction n as [|n IH]; [lia|]; intros _. simpl.
  destruct n as [|n]; [apply pred_day_lt|].
  eapply date_lt_trans; [apply pred_day_lt | apply IH; lia].
Qed.

Lemma add_days_0 d : add_days d 0 = d.
Proof. reflexivity. Qed.

Lemma add_days_neg_lt d n : n < 0 → date_lt (add_days d n) d.
Proof.
  intros Hn. unfold add_days.
  destruct (Z.leb_spec 0 n); [lia|]. apply iter_pred_day_lt. lia.
Qed.

Lemma clip_day_valid d :
  valid_date d → Z.min (days_in_month (year d) (month d)) (day d) = day d.
Proof. intros [_ ?]. lia. Qed.

(** The subtraction of dateutil agrees with the calendar rules. *)
Lemma rd_rsub_days d n :
  valid_date d → rd_rsub d (RelativeDelta 0 0 n) = Spec.minus_days d n.
Proof.
  intros Hd. unfold rd_rsub, rd_add, Spec.minus_days. simpl.
  rewrite Z.add_0_r, clip_day_valid, date_eta; done.
Qed.

Lemma rd_rsub_months d n :
  valid_date d → 1 ≤ n ≤ 12 →
  rd_rsub d (RelativeDelta 0 n 0) = Spec.minus_months d n.
Proof.
  intros [Hm _] Hn. unfold rd_rsub, rd_add, Spec.minus_months. simpl.
  destruct (Z.eqb_spec (- n) 0); [lia|].
  rewrite Z.add_0_r.
  assert ((12 <? month d + - n) = false) as -> by (apply Z.ltb_ge; lia).
  set (t := year d * 12 + (month d - 1) - n).
  destruct (Z.ltb_spec (month d + - n) 1).
  - assert (t / 12 = year d - 1) as ->
      by (symmetry; apply Z.div_unique with (month d - 1 - n + 12); lia).
    assert (t mod 12 = month d - 1 - n + 12) as ->
      by (symmetry; apply Z.mod_unique with (year d - 1); lia).
    by replace (month d - 1 - n + 12 + 1) with (month d + - n + 12) by lia.
  - assert (t / 12 = year d) as ->
      by (symmetry; apply Z.div_unique with (month d - 1 - n); lia).
    assert (t mod 12 = month d - 1 - n) as ->
      by (symmetry; apply Z.mod_unique with (year d); lia).
    by replace (month d - 1 - n + 1) with (month d + - n) by lia.
Qed.

Lemma rd_rsub_years d n :
  rd_rsub d (RelativeDelta n 0 0) = Spec.minus_years d n.
Proof. reflexivity. Qed.

Lemma minus_months_lt d n : valid_date d → 1 ≤ n → date_lt (Spec.minus_months d n) d.
Proof.
  intros [Hm _] Hn. unfold Spec.minus_months, date_lt. simpl.
  pose proof (Z.div_mod (year d * 12 + (month d - 1) - n) 12 ltac:(lia)).
  pose proof (Z.mod_pos_bound (year d * 12 + (month d - 1) - n) 12 ltac:(lia)).
  lia.
Qed.

Lemma minus_years_lt d n : 1 ≤ n → date_lt (Spec.minus_years d n) d.
Proof. intros Hn. unfold Spec.minus_years, date_lt. simpl. lia. Qed.
End calendar_facts.

(** ** The window filter *)

Section filter_facts.
Context {A : Type} (Date_col : A → date).
Implicit Types (df rest : list A) (tag : string).

Lemma filter_data_Ret r0 rest tag :
  filter_data Date_col (r0 :: rest) tag
  = Ret (filter (λ r, date_lt (cutoff Date_col r0 rest tag) (Date_col r))
           (r0 :: rest)).
Proof. reflexivity. Qed.

Lemma filter_data_nonempty df tag :
  df ≠ [] → ∃ out, filter_data Date_col df tag = Ret out.
Proof. destruct df; [done|]. eauto using filter_data_Ret. Qed.

Lemma filter_all (P : A → Prop) `{!∀ x, Decision (P x)} df :
  Forall P df → filter P df = df.
Proof.
  induction 1 as [|x l Hx _ IH]; [done|].
  by rewrite filter_cons_True, IH.
Qed.


Lemma increasing_head_lt r rest :
  increasing Date_col (r :: rest) →
  Forall (λ x, date_lt (Date_col r) (Date_col x)) rest.
Proof.
  revert r. induction rest as [|x rest IH]; intros r; [done|].
  intros [Hrx Hrest]. constructor; [done|].
  eapply Forall_impl; [apply IH, Hrest|].
  intros y Hy. eauto using date_lt_trans.
Qed.




(** Tags outside the dated ones fall to the branches that take the
    first date as cutoff. *)
Lemma cutoff_of_undated latest first tag :
  tag ∉ dated_tags → cutoff_of latest first tag = first.
Proof.
  intros Hnot. unfold cutoff_of.
  repeat match goal with
  | |- context [String.eqb tag ?s] =>
      destruct (String.eqb_spec tag s) as [->|_];
      [try (exfalso; apply Hnot; unfold dated_tags; by repeat constructor)|]
  end; try done.
  all: by repeat case_match.
Qed.

(** With the first date as cutoff, a series in date order loses its
    first row and nothing else. *)
Lemma filter_data_undated r0 rest tag :
  increasing Date_col (r0 :: rest) → tag ∉ dated_tags →
  filter_data Date_col (r0 :: rest) tag = Ret rest.
Proof.
  intros Hinc Htag. rewrite filter_data_Ret. f_equal.
  unfold cutoff. rewrite cutoff_of_undated by done.
  rewrite filter_cons_False by apply date_lt_irrefl.
  apply filter_all, increasing_head_lt, Hinc.
Qed.

(** The cutoff of the code on a dated tag, from the anchor. *)
Lemma cutoff_of_dated latest first tag :
  valid_date latest → tag ∈ dated_tags →
  Spec.window_cutoff latest tag = Some (cutoff_of latest first tag).
Proof.
  intros Hv Htag. unfold dated_tags in Htag.
  repeat (apply elem_of_cons in Htag as [->|Htag]);
    [..|by apply elem_of_nil in Htag];
    unfold Spec.window_cutoff, cutoff_of; cbn [String.eqb Ascii.eqb Bool.eqb];
    rewrite <- ?rd_rsub_years, <- ?rd_rsub_days, <- ?rd_rsub_months by (done || lia);
    done.
Qed.
End filter_facts.

(** C2.  The claim: with the tag "max", "custom" or empty, or any
    unrecognised tag, the filter returns the whole series, earliest bar
    included.  The code takes the earliest date as cutoff and keeps the
    dates strictly after it: on the two bars of 2 and 3 January 2024 each
    of these tags returns the bar of 3 January alone, not both bars. *)
Theorem filter_data_max_drops_earliest_bar :
  Forall (λ tag, filter_data bdate Samples.two_bars tag
                 = Ret (drop 1 Samples.two_bars)
                 ∧ filter_data bdate Samples.two_bars tag
                   ≠ Ret Samples.two_bars)
    ["max"; ""; "custom"; "10y"]%string.
Proof. repeat constructor; (reflexivity || discriminate). Qed.





(** ** The relative strength index *)

Module RsiProofs.
Import pd RsiAux.
Local Open Scope Q_scope.

Section ewm_facts.
Context (alpha : Q) (Halpha : 0 < alpha < 1) (minp : nat).

Lemma Qeq_bool_false_neq x y : Qeq_bool x y = false → ¬ x == y.
Proof. intros H Heq. apply Qeq_bool_iff in Heq. congruence. Qed.

Lemma ewm_step_nobs adjust st cur :
  nobs (ewm_step alpha adjust st cur) = (nobs st + is_observation cur)%nat.
Proof. unfold ewm_step. by repeat case_match. Qed.

(** The adjusted update keeps the sign of the average. *)
Lemma adjusted_update_nonneg ow w c :
  0 < ow → 0 <= w → 0 <= c → 0 <= (ow * w + 1 * c) / (ow + 1).
Proof.
  intros How Hw Hc. apply Qle_shift_div_l; [lra|].
  pose proof (Qmult_le_0_compat _ _ (Qlt_le_weak _ _ How) Hw). lra.
Qed.

Lemma adjusted_update_pos ow w c :
  0 < ow → 0 < w → 0 <= c → 0 < (ow * w + 1 * c) / (ow + 1).
Proof.
  intros How Hw Hc. apply Qlt_shift_div_l; [lra|].
  pose proof (Qmult_lt_0_compat _ _ How Hw). lra.
Qed.

Lemma adjusted_update_nonpos ow w c :
  0 < ow → w <= 0 → c <= 0 → (ow * w + 1 * c) / (ow + 1) <= 0.
Proof.
  intros How Hw Hc. apply Qle_shift_div_r; [lra|].
  assert (0 <= ow * - w) by (apply Qmult_le_0_compat; lra).
  assert (ow * - w == - (ow * w)) by ring. lra.
Qed.

Lemma adjusted_update_neg ow w c :
  0 < ow → w < 0 → c <= 0 → (ow * w + 1 * c) / (ow + 1) < 0.
Proof.
  intros How Hw Hc. apply Qlt_shift_div_r; [lra|].
  assert (0 < ow * - w) by (apply Qmult_lt_0_compat; lra).
  assert (ow * - w == - (ow * w)) by ring. lra.
Qed.

Lemma in_step_step stp stn p n :
  in_step stp stn → paired p n →
  in_step (ewm_step alpha true stp p) (ewm_step alpha true stn n).
Proof.
  intros (Hn & Hop & Hon & Hw) Hpn. unfold in_step.
  rewrite !ewm_step_nobs.
  assert (0 < 1 - alpha) as Hf by lra.
  pose proof (Qmult_lt_0_compat _ _ Hop Hf) as Hop'.
  pose proof (Qmult_lt_0_compat _ _ Hon Hf) as Hon'.
  unfold ewm_step.
  destruct (weighted stp) as [wp|], (weighted stn) as [wn|]; try (by destruct Hw);
  destruct p as [x|], n as [y|]; try (by destruct Hpn);
  cbn [weighted old_wt nobs paired is_observation] in *.
  - destruct Hw as [Hwp Hwn], Hpn as [Hx Hy].
    split; [congruence|]. split; [lra|]. split; [lra|]. split.
    + destruct (Qeq_bool wp x); [done|]. by apply adjusted_update_nonneg.
    + destruct (Qeq_bool wn y); [done|]. by apply adjusted_update_nonpos.
  - split; [congruence|]. split; [lra|]. split; [lra|]. done.
  - split; [congruence|]. done.
  - split; [congruence|]. done.
Qed.


Lemma ewm_out_in_step stp stn :
  in_step stp stn → paired (ewm_out minp stp) (ewm_out minp stn).
Proof.
  intros (Hn & _ & _ & Hw). unfold ewm_out. rewrite Hn.
  by destruct (decide (minp ≤ nobs stn)%nat).
Qed.

Lemma ewm_loop_paired ps ns : ∀ stp stn,
  in_step stp stn → Forall2 paired ps ns →
  Forall2 paired (ewm_loop alpha true minp stp ps)
                 (ewm_loop alpha true minp stn ns).
Proof.
  intros stp stn Hst Hall. revert stp stn Hst.
  induction Hall as [|p n ps ns Hpn _ IH]; intros stp stn Hst; [constructor|].
  cbn [ewm_loop]. pose proof (in_step_step _ _ _ _ Hst Hpn) as Hst'.
  constructor; [by apply ewm_out_in_step | by apply IH].
Qed.

Lemma length_ewm_loop adjust st vals :
  length (ewm_loop alpha adjust minp st vals) = length vals.
Proof. revert st. induction vals as [|v vals IH]; intros st; [done|]. cbn [ewm_loop length]. by rewrite IH. Qed.

Lemma ewm_loop_early adjust vals : ∀ st i c,
  ewm_loop alpha adjust minp st vals !! i = Some c →
  (nobs st + S i < minp)%nat → c = None.
Proof.
  induction vals as [|v vals IH]; intros st i c; [done|].
  cbn [ewm_loop]. destruct i as [|i]; cbn [lookup list_lookup].
  - intros [= <-] Hlt. unfold ewm_out. rewrite ewm_step_nobs.
    rewrite decide_False; [done|]. destruct v; cbn [is_observation]; lia.
  - intros Hc Hlt. apply (IH _ _ _ Hc). rewrite ewm_step_nobs.
    destruct v; cbn [is_observation]; lia.
Qed.

(** The quotient of one RSI cell. *)
Lemma rsi_cell_Some p n r :
  paired p n → rsi_cell 100 p n = Some r →
  ∃ g l, p = Some g ∧ n = Some l ∧ 0 <= g ∧ l <= 0 ∧ 0 < g + Qabs l
         ∧ r = 100 * g / (g + Qabs l).
Proof.
  unfold rsi_cell, paired. destruct p as [g|], n as [l|]; try done.
  intros [Hg Hl]. cbn [omul olift2 oadd oabs fmap option_fmap option_map odiv].
  destruct (Qeq_bool (g + Qabs l) 0) eqn:Hz; [done|]. intros [= <-].
  apply Qeq_bool_false_neq in Hz. pose proof (Qabs_nonneg l).
  exists g, l. split_and!; try done.
  destruct (Qlt_le_dec 0 (g + Qabs l)); [done|]. exfalso. apply Hz. lra.
Qed.


End ewm_facts.

Section rsi_series.
Context (alpha : Q) (Halpha : 0 < alpha < 1) (minp : nat).

Lemma rsi_series_cells (P N : Series) :
  div (scale 100 P) (add P (abs N)) = zip_with (rsi_cell 100) P N.
Proof.
  unfold div, scale, add, abs. revert N.
  induction P as [|p P IH]; intros [|n N]; try done.
  cbn. by rewrite <- IH.
Qed.

Lemma clips_paired (d : Series) :
  Forall2 paired (clip_below_zero d) (clip_above_zero d).
Proof.
  unfold clip_below_zero, clip_above_zero.
  induction d as [|[x|] d IH]; cbn; constructor; try done.
  unfold paired, Qltb.
  destruct (Qle_bool 0 x) eqn:H1, (Qle_bool x 0) eqn:H2; cbn;
    rewrite <- ?Qle_bool_iff; rewrite ?H1, ?H2; split; (done || lra).
Qed.

Lemma ewm_mean_loop adjust min_periods s :
  ewm_mean alpha adjust min_periods s
  = ewm_loop alpha adjust (Nat.max min_periods 1) pre s.
Proof. by destruct s. Qed.

Lemma in_step_pre : in_step pre pre.
Proof. unfold in_step, pre. cbn. split_and!; (done || lra). Qed.

(** Liveness is kept by the loop. *)
Lemma live_step stp stn p n :
  in_step stp stn → live minp stp stn → paired p n →
  live minp (ewm_step alpha true stp p) (ewm_step alpha true stn n).
Proof.
  intros (Hn & Hop & Hon & Hw) [Hnobs (wp & wn & Hwp & Hwn & Hpos)] Hpn.
  split; [rewrite ewm_step_nobs; lia|].
  assert (0 < 1 - alpha) as Hf by lra.
  pose proof (Qmult_lt_0_compat _ _ Hop Hf) as Hop'.
  pose proof (Qmult_lt_0_compat _ _ Hon Hf) as Hon'.
  unfold ewm_step. rewrite Hwp, Hwn in *. cbn [paired] in Hw.
  destruct Hw as [Hwp0 Hwn0].
  destruct p as [x|], n as [y|]; try (by destruct Hpn); cbn [weighted].
  2:{ by exists wp, wn. }
  destruct Hpn as [Hx Hy].
  eexists _, _. split_and!; try reflexivity.
  set (ow := old_wt stp * (1 - alpha)) in *.
  set (ow' := old_wt stn * (1 - alpha)) in *.
  assert (0 <= (if Qeq_bool wp x then wp else (ow * wp + 1 * x) / (ow + 1)))
    as Hp' by (destruct (Qeq_bool wp x); [done | by apply adjusted_update_nonneg]).
  assert ((if Qeq_bool wn y then wn else (ow' * wn + 1 * y) / (ow' + 1)) <= 0)
    as Hn' by (destruct (Qeq_bool wn y); [done | by apply adjusted_update_nonpos]).
  destruct (Qlt_le_dec 0 wp) as [Hlt|Hle].
  - assert (0 < (if Qeq_bool wp x then wp else (ow * wp + 1 * x) / (ow + 1)))
      by (destruct (Qeq_bool wp x); [done | by apply adjusted_update_pos]).
    pose proof (Qabs_nonneg (if Qeq_bool wn y then wn else (ow' * wn + 1 * y) / (ow' + 1))).
    lra.
  - assert (wn < 0) as Hneg.
    { rewrite (Qabs_neg wn Hwn0) in Hpos. lra. }
    assert ((if Qeq_bool wn y then wn else (ow' * wn + 1 * y) / (ow' + 1)) < 0)
      as Hlt by (destruct (Qeq_bool wn y); [done | by apply adjusted_update_neg]).
    rewrite Qabs_neg by done. lra.
Qed.

Lemma live_out stp stn :
  in_step stp stn → live minp stp stn →
  is_Some (rsi_cell 100 (ewm_out minp stp) (ewm_out minp stn)).
Proof.
  intros (Hn & _) [Hnobs (wp & wn & Hwp & Hwn & Hpos)].
  unfold ewm_out. rewrite <- Hn.
  destruct (decide (minp ≤ nobs stp)%nat); [|lia]. rewrite Hwp, Hwn.
  unfold rsi_cell. cbn [omul olift2 oadd oabs fmap option_fmap option_map odiv].
  destruct (Qeq_bool (wp + Qabs wn) 0) eqn:Hz; [|by eexists].
  apply Qeq_bool_iff in Hz. lra.
Qed.

Lemma out_live stp stn r :
  in_step stp stn →
  rsi_cell 100 (ewm_out minp stp) (ewm_out minp stn) = Some r →
  live minp stp stn.
Proof.
  intros Hst Hr.
  apply rsi_cell_Some in Hr as (g & l & Hg & Hl & _ & _ & Hpos & _);
    [|by apply ewm_out_in_step].
  unfold ewm_out in Hg, Hl. destruct Hst as (Hn & _).
  rewrite <- Hn in Hl.
  destruct (decide (minp ≤ nobs stp)%nat); [|done].
  split; [done|]. by exists g, l.
Qed.

Lemma rsi_loop_live ps ns : ∀ stp stn,
  in_step stp stn → live minp stp stn → Forall2 paired ps ns →
  Forall is_Some (zip_with (rsi_cell 100)
                    (ewm_loop alpha true minp stp ps)
                    (ewm_loop alpha true minp stn ns)).
Proof.
  intros stp stn Hst Hlive Hall. revert stp stn Hst Hlive.
  induction Hall as [|p n ps ns Hpn _ IH]; intros stp stn Hst Hlive; [constructor|].
  cbn [ewm_loop zip_with].
  pose proof (in_step_step alpha Halpha _ _ _ _ Hst Hpn) as Hst'.
  pose proof (live_step _ _ _ _ Hst Hlive Hpn) as Hlive'.
  constructor; [by apply live_out | by apply IH].
Qed.

Lemma Forall_is_Some_fmap {A} (l : list (option A)) :
  Forall is_Some l → ∃ vs, l = Some <$> vs.
Proof.
  induction 1 as [|x l [v ->] _ [vs ->]]; [by exists []|]. by exists (v :: vs).
Qed.

(** The cells of the RSI are undefined up to some index and defined from
    there on. *)
Lemma rsi_loop_shape ps ns : ∀ stp stn,
  in_step stp stn → Forall2 paired ps ns →
  ∃ k vs, zip_with (rsi_cell 100)
            (ewm_loop alpha true minp stp ps)
            (ewm_loop alpha true minp stn ns)
          = replicate k None ++ (Some <$> vs).
Proof.
  intros stp stn Hst Hall. revert stp stn Hst.
  induction Hall as [|p n ps ns Hpn Hall IH]; intros stp stn Hst.
  { by exists 0%nat, []. }
  cbn [ewm_loop zip_with].
  pose proof (in_step_step alpha Halpha _ _ _ _ Hst Hpn) as Hst'.
  destruct (rsi_cell 100 _ _) as [r|] eqn:Hr.
  - apply out_live in Hr; [|done].
    destruct (Forall_is_Some_fmap _ (rsi_loop_live _ _ _ _ Hst' Hr Hall))
      as [vs ->].
    by exists 0%nat, (r :: vs).
  - destruct (IH _ _ Hst') as (k & vs & ->). by exists (S k), vs.
Qed.
End rsi_series.

Section rsi_top.
Implicit Types (close : Series) (hist : list bar).

Lemma wilder_alpha : 0 < 1 / Qnat 14 < 1.
Proof. split; reflexivity. Qed.

Lemma length_diff close : length (diff close) = length close.
Proof.
  destruct close as [|c t]; [done|]. cbn [diff length]. f_equal.
  rewrite length_zip_with. cbn [length]. lia.
Qed.

Lemma length_positive close : length (pta.positive close) = length close.
Proof. unfold pta.positive, clip_below_zero. by rewrite length_fmap, length_diff. Qed.

Lemma length_negative close : length (pta.negative close) = length close.
Proof. unfold pta.negative, clip_above_zero. by rewrite length_fmap, length_diff. Qed.

Lemma rma_14 s :
  (14 ≤ length s)%nat →
  pta.rma s 14 = Some (ewm_loop (1 / Qnat 14) true 14 pre s).
Proof.
  intros Hlen. unfold pta.rma, pta.verify_series.
  change (pta.length_arg 14 10) with 14%nat.
  rewrite decide_False by lia. cbn [mbind option_bind].
  by rewrite ewm_mean_loop.
Qed.

Lemma rsi_short close :
  (length close < 14)%nat → pta.rsi close 14 = Ret None.
Proof.
  intros Hlen. unfold pta.rsi, pta.verify_series.
  change (pta.length_arg 14 14) with 14%nat. by rewrite decide_True.
Qed.

Lemma rsi_long close :
  (14 ≤ length close)%nat →
  pta.rsi close 14
  = Ret (Some (zip_with (rsi_cell 100)
                 (ewm_loop (1 / Qnat 14) true 14 pre (pta.positive close))
                 (ewm_loop (1 / Qnat 14) true 14 pre (pta.negative close)))).
Proof.
  intros Hlen. unfold pta.rsi, pta.verify_series.
  change (pta.length_arg 14 14) with 14%nat.
  rewrite decide_False by lia.
  change (Z.of_nat 14) with 14%Z.
  rewrite !rma_14 by (by rewrite ?length_positive, ?length_negative).
  cbn [pta.required mbind res_bind]. by rewrite rsi_series_cells.
Qed.

Lemma length_Close_col hist : length (Close_col hist) = length hist.
Proof. apply length_fmap. Qed.

Lemma length_rsi_cells close :
  length (zip_with (rsi_cell 100)
            (ewm_loop (1 / Qnat 14) true 14 pre (pta.positive close))
            (ewm_loop (1 / Qnat 14) true 14 pre (pta.negative close)))
  = length close.
Proof.
  rewrite length_zip_with, !length_ewm_loop, length_positive, length_negative.
  lia.
Qed.

(** The RSI column never raises and is aligned with the frame. *)
Lemma RSI_column_Ret hist :
  ∃ s, RSI_column hist = Ret s ∧ length s = length hist
       ∧ ∃ k vs, s = replicate k None ++ (Some <$> vs).
Proof.
  unfold RSI_column.
  destruct (decide (length hist < 14)%nat) as [Hshort|Hlong].
  - rewrite rsi_short by (by rewrite length_Close_col).
    cbn [mbind res_bind column_of]. eexists. split_and!; [done|apply length_replicate|].
    exists (length hist), []. by rewrite app_nil_r.
  - rewrite rsi_long by (rewrite length_Close_col; lia).
    cbn [mbind res_bind column_of]. eexists. split_and!; [done|by rewrite length_rsi_cells, length_Close_col|].
    apply (rsi_loop_shape _ wilder_alpha); [apply in_step_pre|].
    apply clips_paired.
Qed.

Lemma shape_last k (vs : list Q) :
  mjoin (last (replicate k None ++ (Some <$> vs)))
  = Spec.last_defined (replicate k None ++ (Some <$> vs)).
Proof.
  unfold Spec.last_defined, observations. rewrite omap_app.
  assert (omap id (replicate k (@None Q)) = []) as ->
    by (induction k; [done|]; by cbn).
  assert (omap id (Some <$> vs) = vs) as ->
    by (induction vs as [|v vs IH]; [done|]; cbn; by rewrite IH).
  rewrite app_nil_l.
  destruct vs as [|v vs] using rev_ind.
  - rewrite app_nil_r. destruct k as [|k]; [done|].
    by rewrite replicate_S_end, last_snoc.
  - rewrite fmap_app. cbn [fmap list_fmap]. by rewrite app_assoc, !last_snoc.
Qed.
End rsi_top.

Lemma RSI_chart_unfold (hist : list bar) (q : string) s :
  RSI_column hist = Ret s →
  RSI hist q false
  = (df ← filter_data (bdate ∘ fst) (zip hist s) q;
     Ret (RSI_figure [Trace "RSI" (bdate ∘ fst <$> df) (snd <$> df)])).
Proof. intros Hs. unfold RSI. by rewrite Hs. Qed.

Lemma current_rsi_last_defined (hist : list bar) (p : string) s :
  RSI_column hist = Ret s → current_rsi hist p = Spec.last_defined s.
Proof.
  intros Hs.
  destruct (RSI_column_Ret hist) as (s' & Hs' & _ & k & vs & Hshape).
  rewrite Hs in Hs'. injection Hs' as <-.
  unfold current_rsi, RSI. rewrite Hs. cbn [mbind res_bind].
  rewrite Hshape. apply shape_last.
Qed.

(** C1.  The alert and the chart read one RSI(14) series: for every
    series of bars and all window tags, the column that [RSI] computes
    for the chart (and then cuts to the window) is the series returned
    with [return_series=True], and the value the alert takes from the
    end of it is its last defined value. *)
Theorem rsi_alert_reads_chart_series (hist : list bar) (p q : string) :
  ∃ s,
    RSI_column hist = Ret s
    ∧ RSI hist q false
      = (df ← filter_data (bdate ∘ fst) (zip hist s) q;
         Ret (RSI_figure [Trace "RSI" (bdate ∘ fst <$> df) (snd <$> df)]))
    ∧ current_rsi hist p = Spec.last_defined s.
Proof.
  destruct (RSI_column_Ret hist) as (s & Hs & _).
  exists s. eauto using RSI_chart_unfold, current_rsi_last_defined.
Qed.

(** C10.  With [return_series=True] the result of [RSI] does not depend
    on the window tag: it is the RSI column of the whole input, one cell
    per bar, so the value the alert reads is the cell of the last bar. *)
Theorem RSI_series_ignores_window (hist : list bar) (p1 p2 : string) :
  RSI hist p1 true = RSI hist p2 true
  ∧ current_rsi hist p1 = current_rsi hist p2
  ∧ ∃ s, RSI hist p1 true = Ret (RSI_series s)
         ∧ RSI_column hist = Ret s
         ∧ length s = length hist
         ∧ current_rsi hist p1 = mjoin (last s).
Proof.
  split_and!; [done..|].
  destruct (RSI_column_Ret hist) as (s & Hs & Hlen & _).
  exists s. unfold current_rsi, RSI. rewrite Hs. by cbn [mbind res_bind].
Qed.

Lemma Close_col_closes (hist : list bar) :
  Close_col hist = Some <$> (close <$> hist).
Proof. unfold Close_col. by rewrite <- list_fmap_compose. Qed.

(** C6.  For twenty bars whose close rises by 1 a day from 100, the RSI
    the alert reads is 100; a threshold of 50 does not fire and a
    threshold of 100 fires. *)
Theorem rising_series_rsi_alert (hist : list bar) (p : string) :
  close <$> hist = Samples.rising_closes →
  ∃ r, current_rsi hist p = Some r ∧ r == 100
       ∧ rsi_alert_fires 50 (current_rsi hist p) = false
       ∧ rsi_alert_fires 100 (current_rsi hist p) = true.
Proof.
  intros Hclose.
  assert (current_rsi hist p = Some 100) as ->.
  { unfold current_rsi, RSI, RSI_column.
    rewrite Close_col_closes, Hclose.
    assert (length hist = 20%nat) as ->
      by (by rewrite <- (length_fmap close), Hclose).
    by vm_compute. }
  exists 100. by vm_compute.
Qed.

Lemma rising_series_rsi_alert_witness :
  ∃ r, current_rsi Samples.rising20 "1y" = Some r ∧ r == 100
       ∧ rsi_alert_fires 50 (current_rsi Samples.rising20 "1y") = false
       ∧ rsi_alert_fires 100 (current_rsi Samples.rising20 "1y") = true.
Proof. apply (rising_series_rsi_alert Samples.rising20 "1y"). reflexivity. Defined.

Lemma avg_early (moves : Series) i c :
  ewm_loop (1 / Qnat 14) true 14 pre (None :: moves) !! i = Some c →
  (i < 14)%nat → c = None.
Proof.
  cbn [ewm_loop]. change (ewm_step (1 / Qnat 14) true pre None) with pre.
  destruct i as [|i]; cbn [lookup list_lookup].
  - by intros [= <-] _.
  - intros Hc Hi. apply (ewm_loop_early _ _ _ _ _ _ _ Hc). cbn. lia.
Qed.

Lemma positive_head (close : Series) :
  close ≠ [] → ∃ moves, pta.positive close = None :: moves.
Proof. destruct close; [done|]. intros _. by eexists. Qed.



Section chart_window.
Context {A : Type} (Date_col : A → date).

Lemma last_filter (P : A → Prop) `{!∀ x, Decision (P x)} (l : list A) x :
  last l = Some x → P x → last (filter P l) = Some x.
Proof.
  intros [l' ->]%last_Some HP.
  rewrite filter_app, filter_cons_True, filter_nil by done. apply last_snoc.
Qed.

(** The windows that reach back from the anchor by days, months or years
    have their cutoff before the anchor. *)
Lemma cutoff_of_before_latest latest first tag :
  valid_date latest →
  tag ∈ ["5d"; "1mo"; "6mo"; "1y"; "5y"]%string →
  date_lt (cutoff_of latest first tag) latest.
Proof.
  intros Hv Htag.
  repeat (apply elem_of_cons in Htag as [->|Htag]);
    [..|by apply elem_of_nil in Htag].
  all: match goal with |- date_lt (cutoff_of _ _ ?t) _ =>
         pose proof (cutoff_of_dated latest first t Hv
                       ltac:(refine (bool_decide_unpack _ _); vm_compute; exact I))
           as Hc
       end.
  all: unfold Spec.window_cutoff in Hc; cbn [String.eqb Ascii.eqb Bool.eqb] in Hc;
       match type of Hc with
       | Some ?a = Some ?b => assert (b = a) as -> by congruence
       end.
  - by apply add_days_neg_lt.
  - by apply minus_months_lt.
  - by apply minus_months_lt.
  - by apply minus_years_lt.
  - by apply minus_years_lt.
Qed.

Lemma filter_data_keeps_last (df : list A) tag r :
  last df = Some r → valid_date (Date_col r) →
  tag ∈ ["5d"; "1mo"; "6mo"; "1y"; "5y"]%string →
  ∃ out, filter_data Date_col df tag = Ret out ∧ last out = Some r.
Proof.
  intros Hlast Hv Htag. destruct df as [|r0 rest]; [done|].
  eexists. split; [apply filter_data_Ret|].
  apply last_filter; [done|]. unfold cutoff. rewrite Hlast. cbn [default].
  by apply cutoff_of_before_latest.
Qed.
End chart_window.

Lemma last_zip {A B} (l : list A) (k : list B) x y :
  length l = length k → last l = Some x → last k = Some y →
  last (zip l k) = Some (x, y).
Proof.
  intros Hlen. rewrite !last_lookup, length_zip_with, <- Hlen.
  replace (length l `min` length l)%nat with (length l) by lia.
  intros Hx Hy. rewrite lookup_zip_with, Hx. cbn. by rewrite Hy.
Qed.

Lemma last_defined_sublist (out s : Series) k (vs : list Q) :
  out `sublist_of` s → s = replicate k None ++ (Some <$> vs) →
  last out = last s → out ≠ [] →
  Spec.last_defined out = Spec.last_defined s.
Proof.
  intros Hsub -> Hlast Hne. rewrite <- shape_last.
  unfold Spec.last_defined, observations.
  destruct out as [|c out'] using rev_ind; [done|]. clear IHout'.
  rewrite last_snoc in Hlast. rewrite <- Hlast. cbn [mjoin option_join].
  rewrite omap_app. destruct c as [v|]; cbn.
  - apply last_snoc.
  - rewrite app_nil_r.
    assert (vs = []) as ->.
    { destruct vs as [|v vs] using rev_ind; [done|].
      rewrite fmap_app in Hlast. cbn [fmap list_fmap] in Hlast.
      by rewrite app_assoc, last_snoc in Hlast. }
    rewrite app_nil_r in Hsub.
    assert (Forall (λ c, c = None) (out' ++ [None])) as Hall.
    { apply Forall_forall. intros c Hc.
      apply (elem_of_sublist _ _ _ Hc) in Hsub.
      by apply elem_of_replicate in Hsub as [-> _]. }
    apply Forall_app in Hall as [Hall _].
    assert (omap id out' = []) as ->; [|done].
    clear -Hall. induction Hall as [|c l -> _ IH]; [done|]. by cbn.
Qed.

(** The trace that [RSI] draws for a window that reaches back from the
    anchor ends on the last bar, so its last defined value is the one the
    alert reads. *)
Lemma RSI_chart_trace_last_defined (hist : list bar) (tag p : string) :
  hist ≠ [] → Forall (valid_date ∘ bdate) hist →
  tag ∈ ["5d"; "1mo"; "6mo"; "1y"; "5y"]%string →
  ∃ x y, RSI hist tag false = Ret (RSI_figure [Trace "RSI" x y])
         ∧ Spec.last_defined y = current_rsi hist p.
Proof.
  intros Hne Hvalid Htag.
  destruct (RSI_column_Ret hist) as (s & Hs & Hlen & k & vs & Hshape).
  pose proof (RSI_chart_unfold hist tag s Hs) as Hfig.
  pose proof (current_rsi_last_defined hist p s Hs) as Hcur.
  destruct (last hist) as [b|] eqn:Hb; [|by apply last_None in Hb].
  destruct (last s) as [c|] eqn:Hc.
  2:{ apply last_None in Hc. rewrite Hc in Hlen. by destruct hist. }
  pose proof (last_zip hist s b c (eq_sym Hlen) Hb Hc) as Hlast.
  destruct (filter_data_keeps_last (bdate ∘ fst) (zip hist s) tag (b, c))
    as (out & Hout & Hlastout); [done| |done|].
  { apply last_Some_elem_of in Hb.
    by apply (proj1 (Forall_forall _ _) Hvalid b). }
  rewrite Hfig, Hout. cbn [mbind res_bind]. do 2 eexists. split; [done|].
  rewrite Hcur. eapply last_defined_sublist; [|done| |].
  - assert (out `sublist_of` zip hist s) as Hsub.
    { destruct (zip hist s) as [|r0 rest] eqn:Hz; [done|].
      rewrite filter_data_Ret in Hout. injection Hout as <-.
      apply sublist_filter. }
    apply (fmap_sublist snd) in Hsub.
    by rewrite snd_zip in Hsub by lia.
  - by rewrite !fmap_last, Hlastout, Hc.
  - intros Hnil. apply fmap_nil_inv in Hnil. by subst out.
Qed.


(** The quotient of [pta.rsi] is [0/0] whenever its denominator is zero:
    no infinity arises. *)
Lemma rsi_denominator_zero (g l : Q) :
  paired (Some g) (Some l) → g + Qabs l == 0 → 100 * g == 0.
Proof.
  intros [Hg Hl] Hz. pose proof (Qabs_nonneg l). assert (g == 0) as -> by lra.
  ring.
Qed.

(** Year-to-date on a series that ends on 1 January: the cutoff is the
    anchor itself, the chart is empty, and the alert still reads the RSI
    of the last bar. *)
Example RSI_ytd_on_new_year :
  RSI Samples.new_year15 "ytd" false = Ret (RSI_figure [Trace "RSI" [] []])
  ∧ current_rsi Samples.new_year15 "ytd" = Some 100.
Proof. by vm_compute. Qed.

End RsiProofs.

(** ** The simple moving average *)

Section sma_facts.
Implicit Types (hist : list bar) (ma_period : Z).

Lemma sma_short (close : Series) ma_period :
  (Z.of_nat (length close) < ma_period)%Z → pta.sma close ma_period = Ret None.
Proof.
  intros Hlt. unfold pta.sma, pta.length_arg, pta.verify_series.
  destruct (Z.ltb_spec 0 ma_period); [|lia].
  rewrite decide_True; [done|lia].
Qed.

Lemma SMA_column_short hist ma_period :
  (Z.of_nat (length hist) < ma_period)%Z →
  SMA_column hist ma_period = Ret (replicate (length hist) None).
Proof.
  intros Hlt. unfold SMA_column, Close_col.
  rewrite sma_short by (by rewrite length_fmap). done.
Qed.

Lemma zip_replicate_filter_snd {A B} (P : A * B → Prop)
    `{!∀ r, Decision (P r)} (l : list A) n (y : B) :
  Forall (λ c, c = y) (snd <$> filter P (zip l (replicate n y))).
Proof.
  apply Forall_forall. intros c Hc.
  apply list_elem_of_fmap in Hc as ([a c'] & -> & Hin).
  apply list_elem_of_filter in Hin as [_ Hin].
  apply elem_of_zip_r in Hin. by apply elem_of_replicate in Hin as [-> _].
Qed.
End sma_facts.

Lemma Moving_average_empty (num_period : string) (ma_period : Z) :
  Moving_average [] num_period ma_period = Raise IndexError.
Proof.
  unfold Moving_average, SMA_column, pta.sma. by destruct (pta.verify_series _ _).
Qed.

(** C8.  When the period exceeds the number of bars, the SMA column is
    computed without error and every cell of it is undefined; on a
    non-empty series [Moving_average] then returns its figure, whose SMA
    trace has no defined value. *)
Theorem SMA_insufficient_data (hist : list bar) (num_period : string)
    (ma_period : Z) :
  (Z.of_nat (length hist) < ma_period)%Z →
  SMA_column hist ma_period = Ret (replicate (length hist) None)
  ∧ (hist ≠ [] →
     ∃ x rows, Moving_average hist num_period ma_period
            = Ret [Trace "Close" x (Some ∘ close ∘ fst <$> rows);
                   Trace ("SMA " +:+ pretty ma_period) x (snd <$> rows)]
            ∧ Forall (λ c, c = None) (snd <$> rows)).
Proof.
  intros Hlt. split; [by apply SMA_column_short|]. intros Hne.
  unfold Moving_average. rewrite SMA_column_short by done.
  cbn [mbind res_bind].
  destruct hist as [|b hist]; [done|]. cbn [length replicate zip zip_with].
  rewrite filter_data_Ret. do 2 eexists. split; [done|].
  apply (zip_replicate_filter_snd _ (b :: hist) (S (length hist)) None).
Qed.

Lemma SMA_insufficient_data_witness :
  SMA_column Samples.rising20 50 = Ret (replicate (length Samples.rising20) None)
  ∧ (Samples.rising20 ≠ [] →
     ∃ x rows, Moving_average Samples.rising20 "1y" 50
            = Ret [Trace "Close" x (Some ∘ close ∘ fst <$> rows);
                   Trace ("SMA " +:+ pretty 50%Z) x (snd <$> rows)]
            ∧ Forall (λ c, c = None) (snd <$> rows)).
Proof. apply (SMA_insufficient_data Samples.rising20 "1y" 50). vm_compute. reflexivity. Defined.

(** ** The MACD columns *)

Module MacdProofs.
Import pd.
Local Open Scope Q_scope.

Lemma macd_frame_shape (close : Series) frame :
  pta.macd close = Ret (Some frame) →
  ∃ line sig,
    frame = [("MACD_12_26_9"%string, line);
             ("MACDh_12_26_9"%string, sub line sig);
             ("MACDs_12_26_9"%string, sig)].
Proof.
  unfold pta.macd. destruct (pta.verify_series _ _); [|done].
  destruct (pta.ema _ pta.fast); [|done].
  destruct (pta.ema _ pta.slow); [|done].
  cbn [pta.required mbind res_bind].
  destruct (pta.ema _ pta.signal); [|done].
  cbn [pta.required mbind res_bind]. intros [= <-]. by do 2 eexists.
Qed.

Lemma MACD_frame_rows (hist : list bar) rows :
  MACD_frame hist = Ret rows →
  ∃ line sig,
    pta.macd (Close_col hist)
    = Ret (Some [("MACD_12_26_9"%string, line);
                 ("MACDh_12_26_9"%string, sub line sig);
                 ("MACDs_12_26_9"%string, sig)])
    ∧ rows = imap (λ i b, MacdRow b (cell line i) (cell (sub line sig) i)
                            (cell sig i)) hist.
Proof.
  unfold MACD_frame.
  destruct (pta.macd (Close_col hist)) as [[frame|]|] eqn:Hm; try done.
  destruct (macd_frame_shape _ _ Hm) as (line & sig & ->).
  cbn. intros [= <-]. by exists line, sig.
Qed.

(** In exact arithmetic the three columns of [MACD] still satisfy
    [Hist = MACD - Signal], whichever of the two is the signal line. *)
Lemma MACD_frame_identity (hist : list bar) rows i row m s h :
  MACD_frame hist = Ret rows → rows !! i = Some row →
  m_MACD row = Some m → m_Signal row = Some s → m_Hist row = Some h →
  h == m - s.
Proof.
  intros (line & sig & _ & ->)%MACD_frame_rows Hrow.
  apply list_lookup_imap_Some in Hrow as (b & _ & ->). cbn.
  unfold cell, sub. rewrite lookup_zip_with.
  destruct (line !! i) as [[m'|]|], (sig !! i) as [[g|]|]; cbn; try done.
  intros [= <-] [= <-] [= <-]. ring.
Qed.

Lemma columns_swapped_sound (hist : list bar) :
  MacdAux.columns_swapped hist = true →
  ∃ rows row g m s h,
    MACD_frame hist = Ret rows
    ∧ last rows = Some row
    ∧ m_MACD row = Some m ∧ m_Signal row = Some s ∧ m_Hist row = Some h
    ∧ mjoin (last (Spec.signal_line (m_MACD <$> rows))) = Some g
    ∧ h == g ∧ s == m - g ∧ ¬ s == g ∧ ¬ h == m - g.
Proof.
  unfold MacdAux.columns_swapped.
  destruct (MACD_frame hist) as [rows|] eqn:Hrows; [|done].
  destruct (last rows) as [row|] eqn:Hrow; [|done].
  destruct (mjoin _) as [g|] eqn:Hg; [|done].
  destruct (m_MACD row) as [m|] eqn:Hm; [|done].
  destruct (m_Signal row) as [s|] eqn:Hs; [|done].
  destruct (m_Hist row) as [h|] eqn:Hh; [|done].
  rewrite !andb_true_iff, !negb_true_iff.
  intros [[[H1 H2] H3] H4].
  exists rows, row, g, m, s, h. split_and!; try done.
  - by apply Qeq_bool_iff.
  - by apply Qeq_bool_iff.
  - intros H%Qeq_bool_iff. congruence.
  - intros H%Qeq_bool_iff. congruence.
Qed.

(** C4.  The claim: the 'Signal' output of [MACD] is the EMA(9) of the
    MACD line and the 'Hist' output is the MACD line minus that signal.
    [MACD] takes the second column of the frame of [pta.macd] as signal
    and the third as histogram, while the frame has the histogram second
    and the signal third.  On the last of thirty-five bars: the 'Hist'
    cell [h] is the signal line [g] of the MACD column, the 'Signal' cell
    [s] is the MACD cell [m] minus [g]; [s] is not [g] and [h] is not
    [m - g]. *)
Theorem MACD_signal_histogram_swapped :
  ∃ rows row g m s h,
    MACD_frame Samples.jump35 = Ret rows
    ∧ last rows = Some row
    ∧ m_MACD row = Some m ∧ m_Signal row = Some s ∧ m_Hist row = Some h
    ∧ mjoin (last (Spec.signal_line (m_MACD <$> rows))) = Some g
    ∧ h == g ∧ s == m - g ∧ ¬ s == g ∧ ¬ h == m - g.
Proof. apply columns_swapped_sound. vm_compute. reflexivity. Qed.
End MacdProofs.

(** ** The sentiment score *)

Module SentimentProofs.
Import Sentiment.

Lemma prefix_spec (w t : string) :
  String.prefix w t = true ↔ ∃ suf, t = w +:+ suf.
Proof.
  revert w. induction t as [|c' t IH]; intros [|c w]; cbn.
  - split; [by exists ""|done].
  - split; [done|]. by intros [? ?].
  - split; [by eexists|done].
  - destruct (Ascii.ascii_dec c c') as [->|Hne].
    + rewrite IH. split; intros [suf Hs]; exists suf; [by rewrite Hs | by injection Hs].
    + split; [done|]. intros [suf [= ? _]]. done.
Qed.

Lemma contains_spec (w t : string) :
  contains w t = true ↔ ∃ pre suf, t = pre +:+ w +:+ suf.
Proof.
  induction t as [|c t IH]; cbn [contains]; rewrite orb_true_iff, prefix_spec.
  - split.
    + intros [[suf Hs]|?]; [|done]. by exists "", suf.
    + intros (pre & suf & Hs). left.
      destruct pre; [by exists suf|done].
  - rewrite IH. split.
    + intros [[suf Hs]|(pre & suf & ->)]; [by exists "", suf|].
      by exists (String c pre), suf.
    + intros ([|c' pre] & suf & Hs); [left; by exists suf|].
      right. injection Hs as -> ->. by exists pre, suf.
Qed.

Lemma lower_app (a b : string) : lower (a +:+ b) = lower a +:+ lower b.
Proof. induction a as [|c a IH]; [done|]. simpl. rewrite IH. reflexivity. Qed.

Lemma lower_split (t a b : string) :
  lower t = a +:+ b → ∃ a' b', t = a' +:+ b' ∧ lower a' = a ∧ lower b' = b.
Proof.
  revert t. induction a as [|c a IH]; intros t Ht.
  - by exists "", t.
  - destruct t as [|c' t]; [done|]. cbn in Ht. injection Ht as Hc Ht.
    destruct (IH _ Ht) as (a' & b' & -> & <- & <-).
    exists (String c' a'), b'. cbn. by rewrite Hc.
Qed.

(** A lower-case word is in the lowered text exactly when it occurs in
    the text, letter case aside. *)
Lemma contains_lower_occurs (w text : string) :
  lower w = w → contains w (lower text) = true ↔ Spec.occurs_ci w text.
Proof.
  intros Hw. rewrite contains_spec. unfold Spec.occurs_ci. split.
  - intros (pre & suf & Ht).
    apply lower_split in Ht as (a & b & -> & <- & Hb).
    apply lower_split in Hb as (m & s & -> & Hm & <-).
    exists a, m, s. by rewrite Hw.
  - intros (pre & mid & suf & -> & Hmid).
    exists (lower pre), (lower suf). by rewrite !lower_app, Hmid, Hw.
Qed.

Lemma count_in_size (words : gset string) (t : string) :
  count_in words t
  = Z.of_nat (size (filter (λ w, contains w t = true) words)).
Proof.
  unfold count_in. f_equal. unfold filter at 2, set_filter.
  rewrite size_list_to_set; [done|]. apply NoDup_filter, NoDup_elements.
Qed.

Lemma pos_words_lexicon w : w ∈ pos_words ↔ w ∈ Spec.positive_lexicon.
Proof. unfold pos_words. by rewrite elem_of_list_to_set. Qed.

Lemma neg_words_lexicon w : w ∈ neg_words ↔ w ∈ Spec.negative_lexicon.
Proof.
  unfold neg_words, Spec.negative_lexicon.
  rewrite elem_of_list_to_set, !elem_of_cons, !elem_of_nil. tauto.
Qed.



End SentimentProofs.

(** ** More on the calendar and the window filter *)

Section calendar_more.
Implicit Types d : date.













End calendar_more.


Section window_more.
Context {A : Type} (Date_col : A → date).
Implicit Types (df rest : list A) (tag : string).



Lemma cutoff_of_first_irrelevant latest f1 f2 tag :
  tag ∈ dated_tags → cutoff_of latest f1 tag = cutoff_of latest f2 tag.
Proof.
  unfold dated_tags. intros Htag.
  repeat (apply elem_of_cons in Htag as [->|Htag]);
    [..|by apply elem_of_nil in Htag];
    unfold cutoff_of; cbn [String.eqb Ascii.eqb Bool.eqb]; reflexivity.
Qed.

Lemma reaching_dated tag : tag ∈ reaching_tags → tag ∈ dated_tags.
Proof.
  unfold reaching_tags, dated_tags. intros Htag.
  repeat (apply elem_of_cons in Htag as [->|Htag]);
    [..|by apply elem_of_nil in Htag]; by repeat constructor.
Qed.

Lemma filter_data_idem df tag out :
  Forall (valid_date ∘ Date_col) df → tag ∈ reaching_tags →
  filter_data Date_col df tag = Ret out →
  filter_data Date_col out tag = Ret out.
Proof.
  intros Hvalid Htag Hout.
  destruct df as [|r0 rest]; [done|].
  destruct (last (r0 :: rest)) as [r|] eqn:Hlast;
    [|by apply last_None in Hlast].
  destruct (RsiProofs.filter_data_keeps_last Date_col (r0 :: rest) tag r)
    as (out' & Hout' & Hlastout); [done| |done|].
  { apply last_Some_elem_of in Hlast.
    by apply (proj1 (Forall_forall _ _) Hvalid r). }
  rewrite Hout in Hout'. injection Hout' as <-.
  rewrite filter_data_Ret in Hout. injection Hout as Hout.
  destruct out as [|o0 orest]; [done|].
  rewrite filter_data_Ret. f_equal.
  unfold cutoff in *. rewrite Hlastout. rewrite Hlast in Hout. cbn [default] in *.
  rewrite (cutoff_of_first_irrelevant _ (Date_col o0) (Date_col r0))
    by by apply reaching_dated.
  apply filter_all. rewrite <- Hout.
  apply Forall_forall. by intros x [? _]%list_elem_of_filter.
Qed.
End window_more.

(** A window tag outside the six dated ones takes the first date as
    cutoff: on a series in date order the result is the series without
    its first bar, whatever the tag. *)
Theorem undated_window_drops_first_bar (r0 : bar) (rest : list bar)
    (tag : string) :
  increasing bdate (r0 :: rest) → tag ∉ dated_tags →
  filter_data bdate (r0 :: rest) tag = Ret rest.
Proof. apply filter_data_undated. Qed.

Lemma undated_window_drops_first_bar_witness :
  filter_data bdate
    (Samples.flat_bar (Date 2024 1 2) 100
       :: [Samples.flat_bar (Date 2024 1 3) 101]) "max"
  = Ret [Samples.flat_bar (Date 2024 1 3) 101].
Proof.
  apply undated_window_drops_first_bar.
  - refine (bool_decide_unpack _ _); vm_compute; exact I.
  - refine (bool_decide_unpack _ _); vm_compute; exact I.
Defined.

(** A window that reaches back by days, months or years is never empty:
    on well-formed dates it keeps the last bar of the series, and that
    bar is the last of the result. *)
Theorem reaching_window_keeps_last_bar (hist : list bar) (tag : string) :
  hist ≠ [] → Forall (valid_date ∘ bdate) hist → tag ∈ reaching_tags →
  ∃ out b, filter_data bdate hist tag = Ret out
           ∧ last hist = Some b ∧ last out = Some b.
Proof.
  intros Hne Hvalid Htag.
  destruct (last hist) as [b|] eqn:Hb; [|by apply last_None in Hb].
  destruct (RsiProofs.filter_data_keeps_last bdate hist tag b)
    as (out & Hout & Hlast); [done| |done|by exists out, b].
  apply last_Some_elem_of in Hb.
  by apply (proj1 (Forall_forall _ _) Hvalid b).
Qed.

Lemma reaching_window_keeps_last_bar_witness :
  ∃ out b, filter_data bdate Samples.rising20 "1mo" = Ret out
           ∧ last Samples.rising20 = Some b ∧ last out = Some b.
Proof.
  apply (reaching_window_keeps_last_bar Samples.rising20 "1mo").
  - discriminate.
  - refine (bool_decide_unpack _ _); vm_compute; exact I.
  - refine (bool_decide_unpack _ _); vm_compute; exact I.
Defined.

(** Filtering the result of a reaching-back window again with the same
    tag changes nothing: the anchor is still the last bar. *)
Theorem reaching_window_idempotent (hist out : list bar) (tag : string) :
  Forall (valid_date ∘ bdate) hist → tag ∈ reaching_tags →
  filter_data bdate hist tag = Ret out →
  filter_data bdate out tag = Ret out.
Proof. apply filter_data_idem. Qed.

Lemma reaching_window_idempotent_witness :
  filter_data bdate (drop 15 Samples.rising20) "5d"
  = Ret (drop 15 Samples.rising20).
Proof.
  apply (reaching_window_idempotent Samples.rising20 _ "5d").
  - refine (bool_decide_unpack _ _); vm_compute; exact I.
  - refine (bool_decide_unpack _ _); vm_compute; exact I.
  - vm_compute. reflexivity.
Defined.






(** The empty frame: every chart function raises before it builds a
    figure ([IndexError] from the window filter, [AttributeError] in
    [MACD]); [RSI] with [return_series=True] returns the empty series and
    the alert reads no value. *)
Theorem charts_on_empty_frame (tag : string) (ma_period : Z) :
  close_chart [] tag = Raise IndexError
  ∧ candlestick [] tag = Raise IndexError
  ∧ RSI [] tag false = Raise IndexError
  ∧ RSI [] tag true = Ret (RSI_series [])
  ∧ current_rsi [] tag = None
  ∧ Moving_average [] tag ma_period = Raise IndexError
  ∧ MACD [] tag = Raise AttributeError.
Proof. split_and!; try done. apply Moving_average_empty. Qed.

(** ** More on the relative strength index *)

Module RsiMore.
Import pd RsiAux RsiProofs.
Local Open Scope Q_scope.

Lemma ewm_step_zeroish alpha adjust st cur :
  zeroish (weighted st) → zeroish cur →
  zeroish (weighted (ewm_step alpha adjust st cur)).
Proof.
  unfold ewm_step, zeroish. intros Hw Hc.
  destruct (weighted st) as [w|], cur as [c|]; cbn [weighted]; try done.
  - intros x [= <-]. pose proof (Hw w eq_refl) as Hw0.
    pose proof (Hc c eq_refl) as Hc0.
    destruct (Qeq_bool w c); [done|]. rewrite Hw0, Hc0. unfold Qdiv. ring.
Qed.

Lemma ewm_loop_zeroish alpha adjust minp vals : ∀ st,
  zeroish (weighted st) → Forall zeroish vals →
  Forall zeroish (ewm_loop alpha adjust minp st vals).
Proof.
  induction vals as [|v vals IH]; intros st Hst Hvals; [constructor|].
  apply Forall_cons in Hvals as [Hv Hvals]. cbn [ewm_loop].
  pose proof (ewm_step_zeroish alpha adjust st v Hst Hv) as Hst'.
  constructor; [|by apply IH].
  unfold ewm_out. by destruct (decide _).
Qed.

Lemma diff_defined (cs : list Q) :
  diff (Some <$> cs)
  = match cs with
    | [] => []
    | _ :: t => None :: (Some <$> zip_with Qminus t cs)
    end.
Proof.
  destruct cs as [|c t]; [done|]. cbn [fmap list_fmap diff]. f_equal.
  change (Some c :: (Some <$> t)) with (Some <$> c :: t).
  generalize (c :: t). intros l. revert l.
  induction t as [|x t IH]; intros [|y l]; cbn; try done. by rewrite IH.
Qed.

(** The differences of consecutive closes satisfy what the chain
    relation says of each pair. *)
Lemma chain_close_diffs (R : Q → Q → Prop) (P : Q → Prop) (hist : list bar) :
  (∀ a b, R a b → P (b - a)) →
  chain (λ a b, R (close a) (close b)) hist →
  Forall P (zip_with Qminus (tail (close <$> hist)) (close <$> hist)).
Proof.
  intros HRP. induction hist as [|x rest IH]; [constructor|].
  intros [Hx Hrest]. destruct rest as [|y rest]; [constructor|].
  cbn. constructor; [by apply HRP|]. by apply IH.
Qed.

Lemma negative_zeroish (hist : list bar) :
  never_falls hist → Forall zeroish (pta.negative (Close_col hist)).
Proof.
  intros Hnf. unfold pta.negative. rewrite Close_col_closes, diff_defined.
  pose proof (chain_close_diffs Qle (λ d, 0 <= d) hist) as Hd.
  cbn beta in Hd. specialize (Hd ltac:(intros; lra) Hnf).
  destruct (close <$> hist) as [|c t]; [constructor|].
  cbn [tail] in Hd. unfold clip_above_zero. rewrite fmap_cons.
  constructor; [done|]. rewrite <- list_fmap_compose.
  apply Forall_fmap. eapply Forall_impl; [exact Hd|].
  intros d Hd0 x. cbn beta in Hd0. cbn. unfold Qltb.
  destruct (Qle_bool d 0) eqn:Hle; cbn; intros [= <-]; [|done].
  apply Qle_bool_iff in Hle. lra.
Qed.

Lemma positive_zeroish (hist : list bar) :
  never_rises hist → Forall zeroish (pta.positive (Close_col hist)).
Proof.
  intros Hnr. unfold pta.positive. rewrite Close_col_closes, diff_defined.
  pose proof (chain_close_diffs (λ a b, b <= a) (λ d, d <= 0) hist) as Hd.
  cbn beta in Hd. specialize (Hd ltac:(intros; lra) Hnr).
  destruct (close <$> hist) as [|c t]; [constructor|].
  cbn [tail] in Hd. unfold clip_below_zero. rewrite fmap_cons.
  constructor; [done|]. rewrite <- list_fmap_compose.
  apply Forall_fmap. eapply Forall_impl; [exact Hd|].
  intros d Hd0 x. cbn beta in Hd0. cbn. unfold Qltb.
  destruct (Qle_bool 0 d) eqn:Hle; cbn; intros [= <-]; [|done].
  apply Qle_bool_iff in Hle. lra.
Qed.

Lemma flat_never_moves (hist : list bar) :
  flat hist → never_falls hist ∧ never_rises hist.
Proof.
  unfold flat, never_falls, never_rises.
  induction hist as [|x rest IH]; [done|].
  intros [Hx Hrest]. destruct (IH Hrest) as [IH1 IH2].
  destruct rest as [|y rest]; [done|].
  split; (split; [cbn beta in Hx |- *; lra | assumption]).
Qed.

Abbreviation avg_gain hist :=
  (ewm_loop (1 / Qnat 14) true 14 pre (pta.positive (Close_col hist))).
Abbreviation avg_loss hist :=
  (ewm_loop (1 / Qnat 14) true 14 pre (pta.negative (Close_col hist))).

(** Every defined cell of the RSI column, with the two averages it is
    made of. *)
Lemma RSI_column_cell (hist : list bar) s i r :
  RSI_column hist = Ret s → s !! i = Some (Some r) →
  ∃ g l, avg_gain hist !! i = Some (Some g)
         ∧ avg_loss hist !! i = Some (Some l)
         ∧ 0 <= g ∧ l <= 0 ∧ 0 < g + Qabs l
         ∧ r = 100 * g / (g + Qabs l).
Proof.
  unfold RSI_column. intros Hs Hr.
  destruct (decide (length hist < 14)%nat) as [Hshort|Hlong].
  - rewrite rsi_short in Hs by (by rewrite length_Close_col).
    injection Hs as <-. cbn [column_of] in Hr.
    by apply lookup_replicate in Hr as [? _].
  - rewrite rsi_long in Hs by (rewrite length_Close_col; lia).
    injection Hs as <-. cbn [column_of] in Hr.
    apply lookup_zip_with_Some in Hr as (g' & l' & Hr & Hg & Hl).
    assert (Forall2 paired (avg_gain hist) (avg_loss hist)) as Hpaired.
    { apply (ewm_loop_paired _ wilder_alpha); [apply in_step_pre | apply clips_paired]. }
    pose proof (Forall2_lookup_lr _ _ _ _ _ _ Hpaired Hg Hl) as Hgl.
    symmetry in Hr.
    apply rsi_cell_Some in Hr as (g & l & -> & -> & ? & ? & ? & ->); [|done].
    by exists g, l.
Qed.

Lemma RSI_column_early (hist : list bar) s i c :
  RSI_column hist = Ret s → s !! i = Some c → (i < 14)%nat → c = None.
Proof.
  unfold RSI_column. intros Hs Hc Hi.
  destruct (decide (length hist < 14)%nat) as [Hshort|Hlong].
  - rewrite rsi_short in Hs by (by rewrite length_Close_col).
    injection Hs as <-. cbn [column_of] in Hc.
    by apply lookup_replicate in Hc as [? _].
  - rewrite rsi_long in Hs by (rewrite length_Close_col; lia).
    injection Hs as <-. cbn [column_of] in Hc.
    apply lookup_zip_with_Some in Hc as (g & l & -> & Hg & Hl).
    destruct (positive_head (Close_col hist)) as [moves Hmoves].
    { destruct hist; [cbn in Hlong; lia | done]. }
    rewrite Hmoves in Hg. by rewrite (avg_early _ _ _ Hg Hi).
Qed.

Lemma current_rsi_cell (hist : list bar) (p : string) s r :
  RSI_column hist = Ret s → current_rsi hist p = Some r →
  ∃ i, s !! i = Some (Some r) ∧ i = pred (length s).
Proof.
  intros Hs. unfold current_rsi, RSI. rewrite Hs. cbn [mbind res_bind].
  rewrite last_lookup. destruct (s !! pred (length s)) as [c|] eqn:Hc; [|done].
  cbn. intros ->. by eexists.
Qed.

Lemma alert_off_without_rsi (rsi_alert : Z) :
  rsi_alert_fires rsi_alert None = false.
Proof. unfold rsi_alert_fires. by rewrite andb_false_r. Qed.

Lemma all_None_current (hist : list bar) (p : string) s :
  RSI_column hist = Ret s → Forall (λ c, c = None) s →
  current_rsi hist p = None.
Proof.
  intros Hs Hall. destruct (current_rsi hist p) as [r|] eqn:Hcur; [|done].
  destruct (current_rsi_cell _ _ _ _ Hs Hcur) as (i & Hi & _).
  apply list_elem_of_lookup_2 in Hi.
  by pose proof (proj1 (Forall_forall _ _) Hall _ Hi).
Qed.

(** With fourteen bars or fewer there is no RSI at any bar, and the RSI
    alert cannot fire, whatever the threshold. *)
Theorem RSI_needs_fifteen_bars (hist : list bar) :
  (length hist ≤ 14)%nat →
  ∃ s, RSI_column hist = Ret s
       ∧ Forall (λ c, c = None) s
       ∧ ∀ rsi_alert p, rsi_alert_fires rsi_alert (current_rsi hist p) = false.
Proof.
  intros Hlen. destruct (RSI_column_Ret hist) as (s & Hs & Hlens & _).
  assert (Forall (λ c, c = None) s) as Hall.
  { apply Forall_lookup. intros i c Hc.
    apply (RSI_column_early hist s i c Hs Hc).
    apply lookup_lt_Some in Hc. lia. }
  exists s. split_and!; [done..|]. intros t p.
  rewrite (all_None_current hist p s Hs Hall). apply alert_off_without_rsi.
Qed.

Lemma RSI_needs_fifteen_bars_witness :
  ∃ s, RSI_column Samples.two_bars = Ret s
       ∧ Forall (λ c, c = None) s
       ∧ ∀ rsi_alert p,
           rsi_alert_fires rsi_alert (current_rsi Samples.two_bars p) = false.
Proof. apply (RSI_needs_fifteen_bars Samples.two_bars). vm_compute. lia. Defined.



(** When the close never rises, every defined cell of the RSI is 0. *)
Theorem RSI_is_0_without_gains (hist : list bar) s i r :
  never_rises hist → RSI_column hist = Ret s → s !! i = Some (Some r) →
  r == 0.
Proof.
  intros Hnr Hs Hr.
  destruct (RSI_column_cell hist s i r Hs Hr)
    as (g & l & Hg & Hl & Hg0 & Hl0 & Hpos & ->).
  assert (g == 0) as Hgz.
  { pose proof (ewm_loop_zeroish (1 / Qnat 14) true 14 _ pre
                  ltac:(done) (positive_zeroish hist Hnr)) as Hall.
    apply list_elem_of_lookup_2 in Hg.
    by apply (proj1 (Forall_forall _ _) Hall _ Hg). }
  rewrite Hgz in Hpos |- *. field. lra.
Qed.

Lemma RSI_is_0_without_gains_witness :
  ∃ s r, RSI_column Samples.falling20 = Ret s ∧ s !! 19%nat = Some (Some r)
         ∧ r == 0.
Proof.
  eexists _, _. split_and!; [reflexivity | vm_compute; reflexivity |].
  eapply (RSI_is_0_without_gains Samples.falling20 _ 19%nat).
  - refine (bool_decide_unpack _ _); vm_compute; exact I.
  - reflexivity.
  - vm_compute. reflexivity.
Defined.

(** On a series whose close never moves, the RSI is undefined at every
    bar (zero over zero), and the RSI alert cannot fire. *)
Theorem RSI_undefined_on_flat_series (hist : list bar) :
  flat hist →
  ∃ s, RSI_column hist = Ret s
       ∧ Forall (λ c, c = None) s
       ∧ ∀ rsi_alert p, rsi_alert_fires rsi_alert (current_rsi hist p) = false.
Proof.
  intros [Hnf Hnr]%flat_never_moves.
  destruct (RSI_column_Ret hist) as (s & Hs & _).
  assert (Forall (λ c, c = None) s) as Hall.
  { apply Forall_lookup. intros i [r|] Hc; [|done]. exfalso.
    destruct (RSI_column_cell hist s i r Hs Hc)
      as (g & l & Hg & Hl & Hg0 & Hl0 & Hpos & _).
    pose proof (ewm_loop_zeroish (1 / Qnat 14) true 14 _ pre
                  ltac:(done) (positive_zeroish hist Hnr)) as HallG.
    pose proof (ewm_loop_zeroish (1 / Qnat 14) true 14 _ pre
                  ltac:(done) (negative_zeroish hist Hnf)) as HallL.
    apply list_elem_of_lookup_2 in Hg, Hl.
    pose proof (proj1 (Forall_forall _ _) HallG _ Hg g eq_refl) as Hgz.
    pose proof (proj1 (Forall_forall _ _) HallL _ Hl l eq_refl) as Hlz.
    rewrite Hgz, Hlz in Hpos. by vm_compute in Hpos. }
  exists s. split_and!; [done..|]. intros t p.
  rewrite (all_None_current hist p s Hs Hall). apply alert_off_without_rsi.
Qed.

Lemma RSI_undefined_on_flat_series_witness :
  ∃ s, RSI_column Samples.flat20 = Ret s
       ∧ Forall (λ c, c = None) s
       ∧ ∀ rsi_alert p,
           rsi_alert_fires rsi_alert (current_rsi Samples.flat20 p) = false.
Proof.
  apply (RSI_undefined_on_flat_series Samples.flat20).
  refine (bool_decide_unpack _ _); vm_compute; exact I.
Defined.


(** The RSI column has no gaps: once a cell is defined, the cell of
    every later bar is defined too. *)
Theorem RSI_has_no_gaps (hist : list bar) s (i j : nat) r :
  RSI_column hist = Ret s → s !! i = Some (Some r) →
  (i ≤ j < length hist)%nat →
  ∃ r', s !! j = Some (Some r').
Proof.
  intros Hs Hi Hij.
  destruct (RSI_column_Ret hist) as (s' & Hs' & Hlen & k & vs & Hshape).
  rewrite Hs in Hs'. injection Hs' as <-. subst s.
  rewrite length_app, length_replicate, length_fmap in Hlen.
  assert (k ≤ i)%nat as Hk.
  { destruct (decide (k ≤ i)%nat); [done|].
    rewrite lookup_app_l in Hi by (rewrite length_replicate; lia).
    by apply lookup_replicate in Hi as [? _]. }
  rewrite lookup_app_r, length_replicate by (rewrite length_replicate; lia).
  rewrite list_lookup_fmap.
  destruct (lookup_lt_is_Some_2 vs (j - k)) as [v ->]; [lia|]. by eexists.
Qed.

Lemma RSI_has_no_gaps_witness :
  ∃ r', [None; None; None; None; None; None; None; None; None; None; None;
         None; None; None; Some 100; Some 100; Some 100; Some 100; Some 100;
         Some 100] !! 19%nat = Some (Some r').
Proof.
  apply (RSI_has_no_gaps Samples.rising20 _ 14%nat 19%nat 100).
  - vm_compute. reflexivity.
  - reflexivity.
  - vm_compute. lia.
Defined.

Lemma RSI_chart_trace_last_defined_witness :
  ∃ x y, RSI Samples.rising20 "5d" false = Ret (RSI_figure [Trace "RSI" x y])
         ∧ Spec.last_defined y = current_rsi Samples.rising20 "max".
Proof.
  apply (RSI_chart_trace_last_defined Samples.rising20 "5d" "max").
  - discriminate.
  - refine (bool_decide_unpack _ _); vm_compute; exact I.
  - refine (bool_decide_unpack _ _); vm_compute; exact I.
Defined.

(** The list of triggered alerts is empty exactly when neither alert
    fires; thresholds of 0 or less disable both alerts; and when both
    fire the price alert comes first. *)
Theorem no_alert_iff_neither_fires (price_alert : Q) (rsi_alert : Z)
    (last_close : Q) (current_rsi : option Q) :
  (triggered price_alert rsi_alert last_close current_rsi = []
   ↔ price_alert_fires price_alert last_close = false
     ∧ rsi_alert_fires rsi_alert current_rsi = false)
  ∧ (price_alert <= 0 → (rsi_alert ≤ 0)%Z →
     triggered price_alert rsi_alert last_close current_rsi = [])
  ∧ (price_alert_fires price_alert last_close = true →
     rsi_alert_fires rsi_alert current_rsi = true →
     ∃ r, current_rsi = Some r
          ∧ triggered price_alert rsi_alert last_close current_rsi
            = [PriceAlert price_alert last_close; RsiAlert rsi_alert r]).
Proof.
  unfold triggered. split_and!.
  - destruct (price_alert_fires price_alert last_close).
    + split; [done|]. by intros [? _].
    + destruct current_rsi as [r|]; [|by rewrite alert_off_without_rsi].
      destruct (rsi_alert_fires rsi_alert (Some r)); [|done].
      split; [done|]. by intros [_ ?].
  - intros Hp Hr. unfold price_alert_fires, Qltb.
    apply Qle_bool_iff in Hp. rewrite Hp. cbn [negb andb app].
    destruct current_rsi as [r|]; [|done].
    unfold rsi_alert_fires. by destruct (Z.ltb_spec 0 rsi_alert); [lia|].
  - intros -> Hr. destruct current_rsi as [r|];
      [|by rewrite alert_off_without_rsi in Hr].
    rewrite Hr. by exists r.
Qed.

End RsiMore.

(** ** More on the moving averages *)

Module AverageMore.
Import pd RsiAux RsiProofs.
Local Open Scope Q_scope.

Lemma observations_defined (cs : list Q) : observations (Some <$> cs) = cs.
Proof.
  unfold observations. induction cs as [|c cs IH]; [done|]. cbn. by rewrite IH.
Qed.

Lemma mean_defined (cs : list Q) :
  cs ≠ [] → mean (Some <$> cs) = Some (Qsum cs / Qlen cs).
Proof.
  intros Hne. unfold mean. rewrite observations_defined. by destruct cs.
Qed.



End AverageMore.

(** ** More on the MACD columns *)

Module MacdMore.
Import pd RsiAux RsiProofs AverageMore MacdProofs.
Local Open Scope Q_scope.

Lemma ewm_loop_undefined_prefix alpha adjust minp k rest :
  ewm_loop alpha adjust minp pre (replicate k None ++ rest)
  = replicate k None ++ ewm_loop alpha adjust minp pre rest.
Proof.
  induction k as [|k IH]; [done|]. cbn [replicate app ewm_loop].
  change (ewm_step alpha adjust pre None) with pre. rewrite IH. f_equal.
  unfold ewm_out. by destruct (decide _).
Qed.

Lemma ewm_loop_defined alpha adjust minp (xs : list Q) : ∀ st,
  is_Some (weighted st) → (minp ≤ nobs st)%nat →
  ∃ ys, ewm_loop alpha adjust minp st (Some <$> xs) = Some <$> ys
        ∧ length ys = length xs.
Proof.
  induction xs as [|x xs IH]; intros st [w Hw] Hn; [by exists []|].
  cbn [fmap list_fmap ewm_loop].
  set (st' := ewm_step alpha adjust st (Some x)).
  assert (∃ w', weighted st' = Some w') as [w' Hw'].
  { subst st'. unfold ewm_step. rewrite Hw. by eexists. }
  assert (minp ≤ nobs st')%nat as Hn'.
  { subst st'. rewrite ewm_step_nobs. lia. }
  destruct (IH st') as (ys & Hys & Hlen); [by eexists|done|].
  exists (w' :: ys). fold (fmap (M:=list) (@Some Q)). rewrite Hys. split.
  - unfold ewm_out. by rewrite decide_True, Hw'.
  - cbn. by rewrite Hlen.
Qed.

(** The EMA of a defined series: nothing when the series is too short,
    otherwise undefined on the first [n - 1] cells and defined from
    there on. *)
Lemma ema_shape (cs : list Q) (n : nat) :
  (1 ≤ n)%nat →
  if decide (length cs < n)%nat then pta.ema (Some <$> cs) (Z.of_nat n) = None
  else ∃ vs, pta.ema (Some <$> cs) (Z.of_nat n)
             = Some (replicate (n - 1) None ++ (Some <$> vs))
             ∧ (length vs + (n - 1) = length cs)%nat.
Proof.
  intros Hn. unfold pta.ema, pta.length_arg, pta.verify_series.
  destruct (Z.ltb_spec 0 (Z.of_nat n)); [|lia]. rewrite Nat2Z.id, length_fmap.
  destruct (decide (length cs < n)%nat) as [Hshort|Hlong]; [done|].
  cbn [mbind option_bind]. rewrite ewm_mean_loop, ewm_loop_undefined_prefix.
  rewrite <- fmap_take, mean_defined.
  2:{ intros Hnil. apply (f_equal length) in Hnil.
      rewrite length_take in Hnil. cbn in Hnil. lia. }
  cbn [ewm_loop]. rewrite <- fmap_drop.
  set (st := ewm_step _ _ pre _).
  destruct (ewm_loop_defined (2 / (Qnat n + 1)) false (0 `max` 1) (drop n cs) st)
    as (ys & -> & Hlen); [by eexists|cbn; lia|].
  eexists (_ :: ys). split; [done|].
  cbn. rewrite Hlen, length_drop. lia.
Qed.

Lemma sub_defined (xs ys : list Q) :
  sub (Some <$> xs) (Some <$> ys) = Some <$> zip_with Qminus xs ys.
Proof.
  unfold sub. revert ys. induction xs as [|x xs IH]; intros [|y ys]; try done.
  cbn. by rewrite <- IH.
Qed.

Lemma sub_shapes k1 : ∀ k2 (vs1 vs2 : list Q),
  (k1 ≤ k2)%nat → (k1 + length vs1 = k2 + length vs2)%nat →
  sub (replicate k1 None ++ (Some <$> vs1)) (replicate k2 None ++ (Some <$> vs2))
  = replicate k2 None ++ (Some <$> zip_with Qminus (drop (k2 - k1) vs1) vs2).
Proof.
  induction k1 as [|k1 IH]; intros k2.
  - induction k2 as [|k2 IH2]; intros vs1 vs2 _ Hlen.
    + cbn. apply sub_defined.
    + destruct vs1 as [|v vs1]; [cbn in Hlen; lia|].
      cbn [replicate app fmap list_fmap]. unfold sub in *.
      cbn [zip_with osub olift2]. f_equal.
      etrans; [apply (IH2 vs1 vs2); cbn in *; lia|].
      by rewrite !Nat.sub_0_r.
  - intros vs1 vs2 Hle Hlen. destruct k2 as [|k2]; [lia|].
    cbn [replicate app]. unfold sub in *. cbn [zip_with osub olift2].
    f_equal. etrans; [apply (IH k2 vs1 vs2); cbn in *; lia|]. done.
Qed.

Lemma first_valid_index_shape k (x : Q) (rest : Series) :
  first_valid_index (replicate k None ++ Some x :: rest) = Some k.
Proof.
  unfold first_valid_index. induction k as [|k IH]; [done|].
  cbn [replicate app]. cbn [list_find]. rewrite decide_False by (by intros [? ?]).
  destruct (list_find _ _) as [[i y]|]; [|done]. cbn in *. by injection IH as ->.
Qed.


(** What [pta.macd] does, by the number of closes. *)
Lemma macd_by_length (cs : list Q) :
  let n := length cs in
  if decide (n < 26)%nat then pta.macd (Some <$> cs) = Ret None
  else if decide (n < 34)%nat then pta.macd (Some <$> cs) = Raise TypeError
  else ∃ ms sg : list Q,
    (length ms + 25 = n)%nat ∧ (length sg + 33 = n)%nat
    ∧ pta.macd (Some <$> cs)
      = Ret (Some [("MACD_12_26_9"%string, replicate 25 None ++ (Some <$> ms));
                   ("MACDh_12_26_9"%string,
                    sub (replicate 25 None ++ (Some <$> ms))
                        (replicate 33 None ++ (Some <$> sg)));
                   ("MACDs_12_26_9"%string, replicate 33 None ++ (Some <$> sg))]).
Proof.
  intros n. unfold pta.macd, pta.verify_series.
  change (Z.to_nat _) with 26%nat. rewrite length_fmap. fold n.
  destruct (decide (n < 26)%nat) as [H26|H26]; [done|].
  pose proof (ema_shape cs 12 ltac:(lia)) as Hfast.
  pose proof (ema_shape cs 26 ltac:(lia)) as Hslow.
  rewrite decide_False in Hfast by (fold n; lia).
  rewrite decide_False in Hslow by (fold n; lia).
  destruct Hfast as (vf & Hfast & Hlf). destruct Hslow as (vl & Hslow & Hll).
  change pta.fast with (Z.of_nat 12). change pta.slow with (Z.of_nat 26).
  rewrite Hfast, Hslow. cbn [pta.required mbind res_bind].
  change (12 - 1)%nat with 11%nat. change (26 - 1)%nat with 25%nat.
  fold n in Hlf, Hll.
  rewrite sub_shapes by lia. change (25 - 11)%nat with 14%nat.
  set (ms := zip_with Qminus (drop 14 vf) vl).
  assert (length ms + 25 = n)%nat as Hms.
  { subst ms. rewrite length_zip_with, length_drop. lia. }
  destruct ms as [|m0 ms'] eqn:Hmseq; [cbn in Hms; lia|].
  cbn [fmap list_fmap]. rewrite first_valid_index_shape. cbn [default].
  change (id 25%nat) with 25%nat.
  rewrite drop_app_length' by (symmetry; apply length_replicate).
  change (Some m0 :: (Some <$> ms')) with (Some <$> (m0 :: ms')).
  pose proof (ema_shape (m0 :: ms') 9 ltac:(lia)) as Hsig.
  change pta.signal with (Z.of_nat 9).
  destruct (decide (n < 34)%nat) as [H34|H34].
  - rewrite decide_True in Hsig by lia. by rewrite Hsig.
  - rewrite decide_False in Hsig by lia. destruct Hsig as (sg & -> & Hlsg).
    cbn [pta.required mbind res_bind]. change (9 - 1)%nat with 8%nat.
    rewrite app_assoc, <- replicate_add. change (25 + 8)%nat with 33%nat.
    exists (m0 :: ms'), sg. split_and!; [done|lia|done].
Qed.

Lemma MACD_frame_short (hist : list bar) :
  (length hist < 26)%nat → MACD_frame hist = Raise AttributeError.
Proof.
  intros Hlen. unfold MACD_frame. rewrite Close_col_closes.
  pose proof (macd_by_length (close <$> hist)) as Hm. cbn zeta in Hm.
  rewrite length_fmap, decide_True in Hm by done. by rewrite Hm.
Qed.


(** With fewer than 26 bars [pta.macd] returns [None] and [MACD] raises
    [AttributeError] on reading its columns, whatever the window. *)
Theorem MACD_raises_below_26_bars (hist : list bar) (tag : string) :
  (length hist < 26)%nat → MACD hist tag = Raise AttributeError.
Proof. intros Hlen. unfold MACD. by rewrite MACD_frame_short. Qed.

Lemma MACD_raises_below_26_bars_witness :
  MACD Samples.rising20 "1y" = Raise AttributeError.
Proof. apply MACD_raises_below_26_bars. vm_compute. lia. Defined.





End MacdMore.

(** ** More on the sentiment score *)

Module SentimentMore.
Import Sentiment SentimentProofs.

Lemma string_app_assoc (a b c : string) : (a +:+ b) +:+ c = a +:+ (b +:+ c).
Proof.
  induction a as [|x a IH]; [done|].
  change (String x ((a +:+ b) +:+ c) = String x (a +:+ (b +:+ c))). by f_equal.
Qed.

Lemma contains_trans (a b t : string) :
  contains a b = true → contains b t = true → contains a t = true.
Proof.
  rewrite !contains_spec. intros (p1 & s1 & ->) (p2 & s2 & ->).
  exists (p2 +:+ p1), (s1 +:+ s2). by rewrite !string_app_assoc.
Qed.

Lemma contains_app_l (w a b : string) :
  contains w a = true → contains w (a +:+ b) = true.
Proof.
  rewrite !contains_spec. intros (p & s & ->).
  exists p, (s +:+ b). by rewrite !string_app_assoc.
Qed.

Lemma contains_app_r (w a b : string) :
  contains w b = true → contains w (a +:+ b) = true.
Proof.
  rewrite !contains_spec. intros (p & s & ->).
  exists (a +:+ p), s. by rewrite !string_app_assoc.
Qed.

Lemma count_in_mono (words : gset string) (t t' : string) :
  (∀ w, contains w t = true → contains w t' = true) →
  count_in words t ≤ count_in words t'.
Proof.
  intros Hmono. rewrite !count_in_size. apply inj_le, subseteq_size.
  intros w. rewrite !elem_of_filter. intros [? ?]. auto.
Qed.

Lemma count_in_bounds (words : gset string) (t : string) :
  0 ≤ count_in words t ≤ Z.of_nat (size words).
Proof.
  unfold count_in. split; [lia|]. apply inj_le, length_filter.
Qed.

(** The score is an integer between -12 and 12: each lexicon has twelve
    distinct words and each counts at most once. *)
Theorem sentiment_score_bounded (text : option string) :
  -12 ≤ (sentiment_and_score text).2 ≤ 12.
Proof.
  unfold sentiment_and_score. cbn [snd].
  pose proof (count_in_bounds pos_words (lower (default "" text))) as Hp.
  pose proof (count_in_bounds neg_words (lower (default "" text))) as Hn.
  assert (size pos_words = 12%nat) as Hsp by (by vm_compute).
  assert (size neg_words = 12%nat) as Hsn by (by vm_compute).
  rewrite Hsp in Hp. rewrite Hsn in Hn. lia.
Qed.

(** Joining two texts, as the dashboard joins headline and summary,
    never loses a word found in either part. *)
Theorem sentiment_counts_grow_by_joining (words : gset string) (a b : string) :
  count_in words (lower a) ≤ count_in words (lower (a +:+ b))
  ∧ count_in words (lower b) ≤ count_in words (lower (a +:+ b)).
Proof.
  rewrite lower_app. split; apply count_in_mono; intros w.
  - apply contains_app_l.
  - apply contains_app_r.
Qed.

Lemma count_two (words : gset string) (t w1 w2 : string) :
  w1 ∈ words → w2 ∈ words → w1 ≠ w2 →
  contains w1 t = true → contains w2 t = true →
  2 ≤ count_in words t.
Proof.
  intros H1 H2 Hne Hc1 Hc2. rewrite count_in_size.
  assert (({[w1; w2]} : gset string)
          ⊆ filter (λ w, contains w t = true) words) as Hsub.
  { intros w. rewrite elem_of_filter, elem_of_union, !elem_of_singleton.
    by intros [-> | ->]. }
  apply subseteq_size in Hsub.
  rewrite size_union, !size_singleton in Hsub; [lia|].
  by apply disjoint_singleton_l, not_elem_of_singleton.
Qed.

(** A text in which "upgrade" occurs counts two positive words, since
    "up" occurs inside it. *)
Theorem upgrade_counts_twice (text : string) :
  Spec.occurs_ci "upgrade" text → 2 ≤ count_in pos_words (lower text).
Proof.
  intros Hoc. apply (contains_lower_occurs "upgrade" text) in Hoc; [|done].
  apply (count_two _ _ "up" "upgrade").
  - apply pos_words_lexicon. by repeat constructor.
  - apply pos_words_lexicon. by repeat constructor.
  - done.
  - by apply (contains_trans _ "upgrade").
  - done.
Qed.

Lemma upgrade_counts_twice_witness :
  2 ≤ count_in pos_words (lower "Analyst Upgrade").
Proof.
  apply upgrade_counts_twice.
  by exists "Analyst ", "Upgrade", "".
Defined.

(** Likewise a text in which "downgrade" occurs counts two negative
    words, since "down" occurs inside it. *)
Theorem downgrade_counts_twice (text : string) :
  Spec.occurs_ci "downgrade" text → 2 ≤ count_in neg_words (lower text).
Proof.
  intros Hoc. apply (contains_lower_occurs "downgrade" text) in Hoc; [|done].
  apply (count_two _ _ "down" "downgrade").
  - apply neg_words_lexicon. by repeat constructor.
  - apply neg_words_lexicon. by repeat constructor.
  - done.
  - by apply (contains_trans _ "downgrade").
  - done.
Qed.

Lemma downgrade_counts_twice_witness :
  2 ≤ count_in neg_words (lower "Downgrade issued").
Proof.
  apply downgrade_counts_twice.
  by exists "", "Downgrade", " issued".
Defined.

End SentimentMore.

(** ** The sidebar controls, the table and the price charts *)

Module DashboardMore.
Import Dashboard.

Lemma days_in_month_other_year y y' m : m ≠ 2 → days_in_month y m = days_in_month y' m.
Proof. intros Hm. unfold days_in_month. by destruct (Z.eqb_spec m 2). Qed.

Lemma not_two_leap_years (y : Z) : isleap y = true → isleap (y - 1) = false.
Proof.
  unfold isleap. rewrite andb_true_iff, andb_false_iff, !Z.eqb_eq.
  intros [H4 _]. left. apply Z.eqb_neq. Z.div_mod_to_equations. lia.
Qed.

Lemma default_start_before today s :
  default_start today = Some s → date_lt s today.
Proof.
  unfold default_start, py_date. case_decide; [|done]. intros [= <-].
  unfold date_lt. cbn. lia.
Qed.

(** On a well-formed date [today] the default start date is the same day
    one year earlier; it does not exist, and building it raises, exactly
    when today is 29 February. *)
Theorem default_start_fails_on_leap_day (today : date) :
  valid_date today → 2 ≤ year today ≤ 9999 →
  (default_start today = None ↔ month today = 2 ∧ day today = 29)
  ∧ ∀ s, default_start today = Some s →
         s = Date (year today - 1) (month today) (day today)
         ∧ valid_date s ∧ date_lt s today.
Proof.
  intros [Hm Hd] Hy. unfold default_start, py_date, MINYEAR, MAXYEAR.
  assert (valid_date (Date (year today - 1) (month today) (day today))
          ↔ ¬ (month today = 2 ∧ day today = 29)) as Hiff.
  { unfold valid_date. cbn [year month day].
    destruct (decide (month today = 2)) as [H2|H2].
    - rewrite H2 in *. unfold days_in_month in *. cbn in *.
      destruct (isleap (year today)) eqn:Hleap.
      + rewrite (not_two_leap_years _ Hleap). lia.
      + destruct (isleap (year today - 1)); lia.
    - rewrite (days_in_month_other_year _ (year today)) by done. lia. }
  split.
  - case_decide as Hdec; [|].
    + split; [done|]. intros H29. destruct Hdec as [_ Hv]. by apply Hiff in Hv.
    + split; [|done]. intros _.
      destruct (decide (month today = 2 ∧ day today = 29)); [done|].
      exfalso. apply Hdec. split; [lia|]. by apply Hiff.
  - intros s. case_decide as Hdec; [|done]. intros [= <-].
    destruct Hdec as [_ Hv]. split_and!; [done..|].
    unfold date_lt. cbn. lia.
Qed.

Lemma default_start_fails_on_leap_day_witness :
  (default_start (Date 2024 2 29) = None
   ↔ month (Date 2024 2 29) = 2 ∧ day (Date 2024 2 29) = 29)
  ∧ ∀ s, default_start (Date 2024 2 29) = Some s →
         s = Date (year (Date 2024 2 29) - 1) (month (Date 2024 2 29))
               (day (Date 2024 2 29))
         ∧ valid_date s ∧ date_lt s (Date 2024 2 29).
Proof.
  apply (default_start_fails_on_leap_day (Date 2024 2 29)).
  - refine (bool_decide_unpack _ _); vm_compute; exact I.
  - vm_compute. split; discriminate.
Defined.

Lemma date_total a b : ¬ date_le b a → date_lt a b.
Proof.
  unfold date_le, date_lt. intros Hn.
  destruct a as [ya ma da], b as [yb mb db]. cbn in *.
  destruct (decide (ya = yb)) as [->|]; [|lia].
  destruct (decide (ma = mb)) as [->|]; [|lia].
  destruct (decide (da = db)) as [->|]; [|lia].
  exfalso. apply Hn. by right.
Qed.

(** Whatever the two date inputs, the range that is fetched starts
    strictly before it ends. *)
Theorem fetch_range_is_ordered (today start_date end_date a b : date) :
  fetch_range today start_date end_date = Some (a, b) → date_lt a b.
Proof.
  unfold fetch_range, date_range.
  destruct (default_start today) as [ds|] eqn:Hds; [|done].
  cbn [mbind option_bind]. apply default_start_before in Hds.
  case_decide as Hle; intros [= <- <-]; [done|]. by apply date_total.
Qed.

Lemma fetch_range_is_ordered_witness :
  date_lt (Date 2025 11 4) (Date 2026 11 4).
Proof.
  apply (fetch_range_is_ordered (Date 2026 11 4) (Date 2026 11 4) (Date 2026 1 1)).
  vm_compute. reflexivity.
Defined.

(** Whatever is chosen in the quick-range box, the charts get one of
    the seven tags that [filter_data] knows, never the empty one:
    "Custom", like any unknown choice, shows the 1-year window. *)
Theorem plot_period_is_a_known_tag (quick : string) :
  plot_period_of (num_period_of quick)
    ∈ ["5d"; "1mo"; "6mo"; "ytd"; "1y"; "5y"; "max"]%string
  ∧ (quick ∉ ["5D"; "1M"; "6M"; "YTD"; "5Y"; "MAX"]%string →
     plot_period_of (num_period_of quick) = "1y"%string).
Proof.
  unfold num_period_of.
  destruct (quick_map !! quick) as [v|] eqn:Hv; cbn [default from_option].
  2:{ split; [by repeat constructor | done]. }
  apply elem_of_list_to_map_2 in Hv.
  repeat (apply elem_of_cons in Hv as [[= -> ->]|Hv]);
    [..|by apply elem_of_nil in Hv].
  all: split; [by repeat constructor|]; intros Hnot; try done.
  all: exfalso; apply Hnot; by repeat constructor.
Qed.

Lemma string_length_app (a b : string) :
  String.length (a +:+ b) = (String.length a + String.length b)%nat.
Proof.
  induction a as [|c a IH]; [done|].
  change (S (String.length (a +:+ b)) = S (String.length a + String.length b)).
  by f_equal.
Qed.

Lemma substring_0_length (n : nat) (s : string) :
  String.length (String.substring 0 n s) = Nat.min n (String.length s).
Proof.
  revert s. induction n as [|n IH]; intros [|c s]; simpl; try done.
  by rewrite IH.
Qed.

Lemma substring_0_all (n : nat) (s : string) :
  (String.length s ≤ n)%nat → String.substring 0 n s = s.
Proof.
  revert s. induction n as [|n IH]; intros [|c s]; simpl; try done; try lia.
  intros Hle. rewrite IH; [done|lia].
Qed.

(** The overview shows a summary of up to 800 characters as it is, and
    of a longer one the first 800 characters followed by three dots: 803
    characters at most. *)
Theorem overview_summary_is_bounded (summary : string) :
  (String.length (overview_summary summary) ≤ 803)%nat
  ∧ ((String.length summary ≤ 800)%nat → overview_summary summary = summary)
  ∧ ((800 < String.length summary)%nat →
     String.length (overview_summary summary) = 803%nat).
Proof.
  unfold overview_summary.
  destruct (Nat.ltb_spec 800 (String.length summary)) as [Hlong|Hshort].
  - rewrite string_length_app, substring_0_length.
    change (String.length "...") with 3%nat. lia.
  - rewrite substring_0_all by done.
    assert (summary +:+ "" = summary) as ->.
    { clear. induction summary as [|c s IH]; [done|].
      change (String c (s +:+ "") = String c s). by f_equal. }
    split_and!; [lia|done|lia].
Qed.

Lemma mjoin_pairs_lookup {A} (a b : A) (k i : nat) :
  mjoin (replicate k [a; b]) !! i
  = if decide (i < 2 * k)%nat then Some (if Nat.even i then a else b) else None.
Proof.
  revert i. induction k as [|k IH]; intros i.
  - rewrite decide_False by lia. done.
  - cbn [replicate mjoin list_join app].
    destruct i as [|[|i]].
    + by rewrite decide_True by lia.
    + by rewrite decide_True by lia.
    + cbn [lookup list_lookup]. rewrite IH.
      change (Nat.even (S (S i))) with (Nat.even i).
      destruct (decide (i < 2 * k)%nat).
      * by rewrite decide_True by lia.
      * by rewrite decide_False by lia.
Qed.

Lemma length_mjoin_pairs {A} (a b : A) (k : nat) :
  length (mjoin (replicate k [a; b])) = (2 * k)%nat.
Proof.
  induction k as [|k IH]; [done|].
  change (mjoin (replicate (S k) [a; b]))
    with (a :: b :: mjoin (replicate k [a; b])).
  cbn [length]. rewrite IH. lia.
Qed.

Section table_facts.
Context {V : Type} (format_val : V → string).

(** The table has one label and one value per row of the frame, and
    every row has a fill colour: the rows take the two stripe colours in
    turn, beginning with the "odd" one, and the colour list is as long as
    the frame, or one longer when the number of rows is odd. *)
Theorem plotly_table_stripes (dataframe : list (string * V))
    (accent bg_mode : string) :
  let t := plotly_table format_val dataframe accent bg_mode in
  let rowOdd := if String.eqb bg_mode "plain" then "#f8f9fa" else "#0b0d11" in
  let rowEven := if String.eqb bg_mode "plain" then "#ffffff" else "#0f1721" in
  length (cell_labels t) = length dataframe
  ∧ length (cell_values t) = length dataframe
  ∧ length (cell_fill t) = (2 * ((length dataframe + 1) / 2))%nat
  ∧ (length dataframe ≤ length (cell_fill t) ≤ length dataframe + 1)%nat
  ∧ ∀ i, (i < length dataframe)%nat →
         cell_fill t !! i = Some (if Nat.even i then rowOdd else rowEven).
Proof.
  cbv zeta. unfold plotly_table. cbv zeta. cbn [cell_labels cell_values cell_fill].
  rewrite !length_fmap.
  set (k := ((length dataframe + 1) / 2)%nat).
  assert (length dataframe ≤ 2 * k ≤ length dataframe + 1)%nat as Hk.
  { subst k. pose proof (Nat.div_mod_eq (length dataframe + 1) 2).
    pose proof (Nat.mod_upper_bound (length dataframe + 1) 2). lia. }
  rewrite !length_mjoin_pairs.
  split_and!; [done|done|done|lia|lia|].
  intros i Hi. rewrite mjoin_pairs_lookup. by rewrite decide_True by lia.
Qed.
End table_facts.

(** For each choice of the quick-range box other than "YTD" and "MAX",
    and on well-formed dates, the line chart and the candlestick chart
    show the same bars and both end on the last bar: the last close they
    plot is the price of the top metric. *)
Theorem price_charts_end_on_last_close (hist : list bar) (quick : string) :
  hist ≠ [] → Forall (valid_date ∘ bdate) hist →
  quick ∈ ["Custom"; "5D"; "1M"; "6M"; "1Y"; "5Y"]%string →
  let tag := plot_period_of (num_period_of quick) in
  ∃ x yc yo candles,
    close_chart hist tag = Ret [Trace "Close" x yc; Trace "Open" x yo]
    ∧ candlestick hist tag = Ret candles
    ∧ c_x candles = x ∧ c_close candles = yc ∧ c_open candles = yo
    ∧ last x = bdate <$> last hist
    ∧ mjoin (last yc) = last_close hist.
Proof.
  intros Hne Hvalid Hquick tag.
  assert (tag ∈ reaching_tags) as Htag.
  { subst tag. unfold reaching_tags.
    repeat (apply elem_of_cons in Hquick as [->|Hquick]);
      [..|by apply elem_of_nil in Hquick]; vm_compute; by repeat constructor. }
  destruct (last hist) as [b|] eqn:Hb; [|by apply last_None in Hb].
  destruct (RsiProofs.filter_data_keeps_last bdate hist tag b)
    as (out & Hout & Hlast); [done| |done|].
  { apply last_Some_elem_of in Hb.
    by apply (proj1 (Forall_forall _ _) Hvalid b). }
  unfold close_chart, candlestick, last_close. rewrite Hout, Hb.
  cbn [mbind res_bind]. do 4 eexists. split_and!; try done.
  - by rewrite fmap_last, Hlast.
  - by rewrite fmap_last, Hlast.
Qed.

Lemma price_charts_end_on_last_close_witness :
  let tag := plot_period_of (num_period_of "Custom") in
  ∃ x yc yo candles,
    close_chart Samples.rising20 tag
    = Ret [Trace "Close" x yc; Trace "Open" x yo]
    ∧ candlestick Samples.rising20 tag = Ret candles
    ∧ c_x candles = x ∧ c_close candles = yc ∧ c_open candles = yo
    ∧ last x = bdate <$> last Samples.rising20
    ∧ mjoin (last yc) = last_close Samples.rising20.
Proof.
  apply (price_charts_end_on_last_close Samples.rising20 "Custom").
  - discriminate.
  - refine (bool_decide_unpack _ _); vm_compute; exact I.
  - refine (bool_decide_unpack _ _); vm_compute; exact I.
Defined.

End DashboardMore.
